(** * gurnel [stats]: the aggregation, report and walk of
    [internal/gurnel/stats.go], embedded in Rocq.

    The file follows the source top-down:
    - [Float64]: Go's [float64], as the IEEE 754 binary64 specification of the
      Standard Library ([SpecFloat], precision 53, [emax] 1024), with the
      conversions and [math.Floor] the report step calls;
    - [GoTime]: [time.Time] as an instant in nanoseconds, [time.Duration] as a
      64-bit count of nanoseconds, with [After], [Sub] and [Hours];
    - [Gurnel]: the [result] and [wordStat] structs, the receive loop of [Run]
      over the result channel, the report step, [walkFiles], and the result
      [entryScanner] builds for a path;
    - [Pipeline]: the goroutines [Run] starts, as a system that moves by one
      channel operation at a time under a scheduler.

    In [Gurnel] channels are modelled by what is received on them: the result
    channel [c] is the list of results in arrival order, [errc] is the value
    its single receive yields; [Pipeline] shows that these are the streams
    the goroutines produce.  [range] over a Go map, [sort.Slice], the
    [journalentry] package and [strings.ToLower] are parameters of the
    development, constrained only by what the language and the libraries
    promise. *)

From Stdlib Require Import ZArith Bool List Lia Permutation.
From Stdlib Require Import Floats.SpecFloat.
From stdpp Require Import gmap strings list fin_maps sorting.

(** ** float64 *)

Module Float64.

Definition prec : Z := 53.
Definition emax : Z := 1024.

Definition float64 : Type := spec_float.

Definition zero : float64 := S754_zero false.
Definition pinf : float64 := S754_infinity false.

Definition add : float64 -> float64 -> float64 := SFadd prec emax.
Definition mul : float64 -> float64 -> float64 := SFmul prec emax.
Definition div : float64 -> float64 -> float64 := SFdiv prec emax.

(** Go's [x > y] on float64: false as soon as one side is a NaN. *)
Definition gt (x y : float64) : bool := SFltb y x.

(** [float64(n)] for an integer [n]: round to nearest, ties to even. *)
Definition of_int (n : Z) : float64 := binary_normalize prec emax n 0 false.

Definition one : float64 := Eval vm_compute in of_int 1.
Definition neg_one : float64 := Eval vm_compute in of_int (-1).
Definition f24 : float64 := Eval vm_compute in of_int 24.
Definition f100 : float64 := Eval vm_compute in of_int 100.

(** [math.Floor]: the greatest integer value not above [x]; zeros,
    infinities and NaN are returned as they are.  A finite [x] with a
    negative exponent [e] is [m * 2^e]; shifting the signed mantissa right by
    [-e] bits rounds it towards minus infinity. *)
Definition Floor (x : float64) : float64 :=
  match x with
  | S754_finite s m e =>
      if (0 <=? e)%Z then x
      else of_int (Z.shiftr (cond_Zopp s (Zpos m)) (- e))
  | _ => x
  end.

Definition is_nan (x : float64) : bool :=
  match x with S754_nan => true | _ => false end.

Definition is_finite (x : float64) : bool :=
  match x with S754_zero _ | S754_finite _ _ _ => true | _ => false end.

End Float64.

(** ** time.Time and time.Duration *)

Module GoTime.
Import Float64.
Local Open Scope Z_scope.

(** A [Time] is the instant it denotes, in nanoseconds since the epoch:
    [After] and [Sub] compare and subtract instants. *)
Definition Time : Type := Z.
Definition Duration : Type := Z.

Definition minDuration : Duration := - 2 ^ 63.
Definition maxDuration : Duration := 2 ^ 63 - 1.
Definition Hour : Duration := 3600000000000.

Definition After (t u : Time) : bool := u <? t.

(** [t.Sub(u)]: the difference, saturated to the range of [Duration]. *)
Definition Sub (t u : Time) : Duration :=
  Z.max minDuration (Z.min maxDuration (t - u)).

(** [d.Hours()]: [float64(d / Hour) + float64(d % Hour) / (60*60*1e9)],
    with Go's truncating division and remainder. *)
Definition Hours (d : Duration) : float64 :=
  add (of_int (Z.quot d Hour)) (div (of_int (Z.rem d Hour)) (of_int Hour)).

End GoTime.

(** ** The stats command *)

Module Gurnel.
Import Float64 GoTime.

(** A Go [error] value is identified by its message. *)
Definition error : Type := string.

(** A [uint64] is a [Z] in [0, 2^64); arithmetic wraps around. *)
Definition wrap64 (x : Z) : Z := (x mod 2 ^ 64)%Z.

Record result : Type := mkResult {
  wordMap : gmap string Z;
  date : Time;
  err : option error
}.

Record wordStat : Type := mkWordStat {
  word : string;
  occurrences : Z;
  frequency : float64
}.

(** The variables [Run] declares before its receive loop: [entryCount],
    [wordMap] (here [words]) and [minDate]. *)
Record locals : Type := mkLocals {
  entryCount : float64;
  words : gmap string Z;
  minDate : Time
}.

(** What [Run] writes to standard output, one constructor per [Printf]
    call; the rows sent to the tabwriter appear where [Flush] writes them. *)
Inductive line : Type :=
| DaysJournaled (percent100 : float64) (since : Time)
| TotalWordCount (n : Z)
| AverageWordCount (avg : float64)
| Blank
| TopFrequent (n : nat)
| TopInfrequent (n : nat)
| Row (w : string) (f : float64).

(** How a call ends: it returns its [error] result ([None] is [nil]), or a
    run-time panic unwinds it. *)
Inductive outcome : Type :=
| Return (e : option error)
| Panic.

Record execution : Type := mkExecution {
  ret : outcome;
  stdout : list line;
  taken : nat        (* results received from the channel [c] *)
}.

(** [relFrequency] of lines 96-105, from the observed and the reference
    frequency of one word. *)
Definition relFrequency (frequency refFrequency : float64) : float64 :=
  if gt frequency refFrequency then
    if gt refFrequency zero then div frequency refFrequency else zero
  else mul (div refFrequency frequency) neg_one.

(** [s[i]] for a Go [int] index: out of range is [None] (a panic). *)
Definition index {A} (s : list A) (i : Z) : option A :=
  if (i <? 0)%Z then None else s !! Z.to_nat i.

Definition topUnusualWordCount : nat := 100.

Section Run.
(** The package variable [refFreqs]. *)
Variable refFreqs : gmap string float64.
(** [range_map k m]: the entries of [m] in the order the [k]-th [range]
    statement of this run yields them.  Go leaves the order unspecified. *)
Variable range_map : nat -> gmap string Z -> list (string * Z).
(** [sort.Slice], as a function from the slice before to the slice after. *)
Variable sort_Slice : forall A : Type, (A -> A -> bool) -> list A -> list A.

(** [wordMap[word] += count] *)
Definition add_count (m : gmap string Z) (wc : string * Z) : gmap string Z :=
  <[ wc.1 := wrap64 (default 0%Z (m !! wc.1) + wc.2) ]> m.

(** One iteration of the receive loop for a result without error. *)
Definition accumulate (k : nat) (st : locals) (r : result) : locals :=
  {| entryCount := add (entryCount st) one;
     words := foldl add_count (words st) (range_map k (wordMap r));
     minDate := if After (minDate st) (date r) then date r else minDate st |}.

(** [for r := range c { ... }], lines 60-71: [inl e] when the loop returns
    [r.err], [inr st] when the channel is closed and drained; the second
    component counts the results received. *)
Fixpoint receive (k : nat) (st : locals) (c : list result)
  : (error + locals) * nat :=
  match c with
  | [] => (inr st, k)
  | r :: c' =>
      match err r with
      | Some e => (inl e, S k)
      | None => receive (S k) (accumulate k st r) c'
      end
  end.

Definition percent (t : Time) (st : locals) : float64 :=
  div (entryCount st) (Floor (div (Hours (Sub t (minDate st))) f24)).

Definition sum_counts (l : list (string * Z)) : Z :=
  foldl (fun acc wc => wrap64 (acc + wc.2)) 0%Z l.

Definition mkStat (wordCount : Z) (wc : string * Z) : wordStat :=
  let frequency := div (of_int wc.2) (of_int wordCount) in
  let refFrequency := default zero (refFreqs !! wc.1) in
  {| word := wc.1; occurrences := wc.2;
     frequency := relFrequency frequency refFrequency |}.

Definition less (a b : wordStat) : bool := gt (frequency a) (frequency b).

Definition row (ws : wordStat) : line := Row (word ws) (frequency ws).

(** The second printing loop, [for i := 1; i <= n; i++], reading
    [wordStats[len(wordStats)-i]]. *)
Fixpoint tail_rows (wordStats : list wordStat) (i : Z) (n : nat)
  : option (list line) :=
  match n with
  | O => Some []
  | S n' =>
      match index wordStats (Z.of_nat (length wordStats) - i) with
      | None => None
      | Some ws =>
          match tail_rows wordStats (i + 1) n' with
          | None => None
          | Some rows => Some (row ws :: rows)
          end
      end
  end.

(** Lines 77-127, the body of [if entryCount > 0]; [k] numbers the next
    [range] statement. *)
Definition report (t : Time) (st : locals) (k : nat) : outcome * list line :=
  let wordCount := sum_counts (range_map k (words st)) in
  let avgCount := div (of_int wordCount) (entryCount st) in
  let scalars :=
    [ DaysJournaled (mul (percent t st) f100) (minDate st);
      TotalWordCount wordCount;
      AverageWordCount avgCount;
      Blank ] in
  if bool_decide (size refFreqs = 0%nat) then (Return None, scalars)
  else
    let wordStats :=
      sort_Slice wordStat less
        (map (mkStat wordCount) (range_map (S k) (words st))) in
    let n := topUnusualWordCount in
    if bool_decide (n <= size (words st))%nat then
      match tail_rows wordStats 1 n with
      | Some rows =>
          (Return None,
           scalars ++ TopFrequent n :: map row (take n wordStats)
                   ++ Blank :: TopInfrequent n :: rows)
      | None =>
          (Panic,
           scalars ++ TopFrequent n :: map row (take n wordStats)
                   ++ [Blank; TopInfrequent n])
      end
    else (Panic, scalars ++ [TopFrequent n]).

(** [Run] from line 56 on: [t] is the value of [time.Now()], [c] the
    results in the order they arrive, [errc] the walk's terminal error. *)
Definition Run (t : Time) (c : list result) (errc : option error) : execution :=
  let st0 := {| entryCount := zero; words := ∅; minDate := t |} in
  match receive 0 st0 c with
  | (inl e, k) => {| ret := Return (Some e); stdout := []; taken := k |}
  | (inr st, k) =>
      match errc with
      | Some e => {| ret := Return (Some e); stdout := []; taken := k |}
      | None =>
          if gt (entryCount st) zero then
            let '(o, out) := report t st k in
            {| ret := o; stdout := out; taken := k |}
          else {| ret := Return None; stdout := []; taken := k |}
      end
  end.
End Run.

(** *** walkFiles *)

(** One call of the function passed to [filepath.Walk]: the [path], whether
    [info.Mode().IsRegular()], and the [err] argument. *)
Record visit : Type := mkVisit {
  path : string;
  regular : bool;
  walk_err : option error
}.

Definition walk_canceled : error := "walk canceled".

Section Walk.
(** [journalentry.IsEntry] *)
Variable IsEntry : string -> bool.
(** [info.Name()] for the file at a path: its base name. *)
Variable Name : string -> string.

(** The files the callback goes on with: line 156 does not return. *)
Definition eligible (v : visit) : bool :=
  regular v && IsEntry (path v).

(** [filepath.Walk] calling the function of lines 152-166 on [vs], the
    files of the tree in walk order.  [visited] is the map of line 147.
    [cancel = Some n] says that [done] is closed when the send of the
    [n]-th path from here (counting from 0) is attempted; [None] that
    every send is received.  The result is the paths sent on [paths], in
    order, and the error sent on [errc]. *)
Fixpoint walk (visited : gmap string bool) (cancel : option nat)
    (vs : list visit) : list string * option error :=
  match vs with
  | [] => ([], None)
  | v :: vs' =>
      match walk_err v with
      | Some e => ([], Some e)
      | None =>
          if negb (regular v)
             || default false (visited !! Name (path v))
             || negb (IsEntry (path v))
          then walk visited cancel vs'
          else
            let visited' := <[ Name (path v) := true ]> visited in
            match cancel with
            | Some O => ([], Some walk_canceled)
            | _ =>
                let '(sent, e) := walk visited' (pred <$> cancel) vs' in
                (path v :: sent, e)
            end
      end
  end.

Definition walkFiles (cancel : option nat) (root : list visit)
  : list string * option error :=
  walk ∅ cancel root.
End Walk.

(** *** entryScanner *)

Section Scanner.
(** The [journalentry] package, by the path of the entry [p]: the error of
    [p.Load()], the words [p.Words()] yields once the entry is loaded, and
    the date [p.Date()] returns after the load was tried. *)
Variable Load : string -> option error.
Variable Words : string -> list string.
Variable Date : string -> Time.
(** [strings.ToLower] *)
Variable ToLower : string -> string.

(** [m[strings.ToLower(string(word))]++] *)
Definition count_word (m : gmap string Z) (word : string) : gmap string Z :=
  <[ ToLower word := wrap64 (default 0%Z (m !! ToLower word) + 1) ]> m.

(** Lines 173-181 and the struct of line 183: the result one path gives. *)
Definition scan (p : string) : result :=
  let err := Load p in
  let m :=
    match err with
    | None => foldl count_word ∅ (Words p)
    | Some _ => ∅
    end in
  {| wordMap := m; date := Date p; err := err |}.
End Scanner.

(** *** Instances used to run the model *)

(** [sort.Slice] on short slices is Go's [insertionSortLessFunc]: each
    element in turn moves left while it is [less] than its left neighbour.
    The sorted prefix is kept reversed, its last element first. *)
Fixpoint move_left {A} (less : A -> A -> bool) (x : A) (prefix : list A) : list A :=
  match prefix with
  | [] => [x]
  | y :: prefix' =>
      if less x y then y :: move_left less x prefix' else x :: prefix
  end.

Definition insertion_sort (A : Type) (less : A -> A -> bool) (l : list A) : list A :=
  reverse (foldl (fun prefix x => move_left less x prefix) [] l).

(** Two iteration orders for [range]: the order of [map_to_list], and its
    reverse. *)
Definition range_fwd (_ : nat) (m : gmap string Z) : list (string * Z) :=
  map_to_list m.
Definition range_bwd (_ : nat) (m : gmap string Z) : list (string * Z) :=
  reverse (map_to_list m).
End Gurnel.

(** ** Notions used to state the properties *)

Module Spec.
Import Float64 GoTime Gurnel.

(** A result that carries no failure. *)
Definition succeeded (r : result) : Prop := err r = None.

(** The start of the receive loop at time [t]. *)
Definition start (t : Time) : locals :=
  {| entryCount := zero; words := ∅; minDate := t |}.

(** [entryCount] after [n] increments. *)
Definition counted (n : nat) : float64 := Nat.iter n (fun x => add x one) zero.

(** The cumulative count of word [w] over the results [c], starting from
    the entry [o] of the merged map: a word no result mentions keeps [o]. *)
Definition tally (w : string) (o : option Z) (c : list result) : option Z :=
  foldl (fun o r =>
           match wordMap r !! w with
           | Some n => Some (wrap64 (default 0%Z o + n))
           | None => o
           end) o c.

(** [visited[n]], false for a name the map does not hold. *)
Definition seen (visited : gmap string bool) (n : string) : bool :=
  default false (visited !! n).

(** [v] is the first file of [before ++ v :: after] the callback goes on
    with under its base name. *)
Definition first_of_name (IsEntry : string -> bool) (Name : string -> string)
    (before : list visit) (v : visit) : Prop :=
  eligible IsEntry v = true /\
  forall u, u ∈ before -> eligible IsEntry u = true ->
            Name (path u) <> Name (path v).

(** *** Values of floats, for bounds

    A finite float with mantissa [m] and exponent [e] is worth [m * 2^e].
    Exponents go down to -1074 and below in intermediate results, so values
    are compared after scaling by [2^3000]: [p2 e] is [2^e] scaled. *)
Definition p2 (e : Z) : Z := (2 ^ (e + 3000))%Z.

(** [x] is +0 or a positive finite float worth at most [mb * 2^eb]. *)
Definition le_float (x : float64) (mb : positive) (eb : Z) : Prop :=
  match x with
  | S754_zero false => True
  | S754_finite false m e => (-1074 <= e /\ Zpos m * p2 e <= Zpos mb * p2 eb)%Z
  | _ => False
  end.

(** [x] is +Inf or a positive finite float worth at least [2^L]. *)
Definition ge_float (x : float64) (L : Z) : Prop :=
  match x with
  | S754_infinity false => True
  | S754_finite false m e => (-1074 <= e /\ p2 L <= Zpos m * p2 e)%Z
  | _ => False
  end.

(** [x] is +Inf or a positive finite float worth at least [mb * 2^eb]. *)
Definition ge_bound (x : float64) (mb : positive) (eb : Z) : Prop :=
  match x with
  | S754_infinity false => True
  | S754_finite false m e => (-1074 <= e /\ Zpos mb * p2 eb <= Zpos m * p2 e)%Z
  | _ => False
  end.

(** Whether bits were lost: by a shift record, by a location. *)
Definition inexact (r : shr_record) : bool := shr_r r || shr_s r.
Definition is_exact (l : location) : bool :=
  match l with loc_Exact => true | _ => false end.

(** *** Order

    [sort.Slice] promises a sorted permutation when [less] is a strict weak
    ordering of the elements. *)
Definition sorted_by {A} (less : A -> A -> bool) (l : list A) : Prop :=
  StronglySorted (fun a b => less b a = false) l.

Definition strict_weak_on {A} (less : A -> A -> bool) (l : list A) : Prop :=
  (forall a, a ∈ l -> less a a = false) /\
  (forall a b c, a ∈ l -> b ∈ l -> c ∈ l ->
     less a b = true -> less b c = true -> less a c = true) /\
  (forall a b c, a ∈ l -> b ∈ l -> c ∈ l ->
     less a b = false -> less b c = false -> less a c = false).

Definition sorts (sort : forall A : Type, (A -> A -> bool) -> list A -> list A) : Prop :=
  forall (A : Type) (less : A -> A -> bool) (l : list A),
    sort A less l ≡ₚ l /\
    (strict_weak_on less l -> sorted_by less (sort A less l)).

(** The place of a float that is not a NaN in the order of [SFcompare]:
    class (infinities outermost, zeros in the middle), then exponent, then
    mantissa, the last two negated for negative floats. *)
Definition key (x : float64) : Z * Z * Z :=
  match x with
  | S754_zero _ => (0, 0, 0)
  | S754_infinity false => (2, 0, 0)
  | S754_infinity true => (-2, 0, 0)
  | S754_nan => (0, 0, 0)
  | S754_finite false m e => (1, e, Zpos m)
  | S754_finite true m e => (-1, - e, Zneg m)
  end%Z.

Definition lex_lt (a b : Z * Z * Z) : Prop :=
  (a.1.1 < b.1.1 \/
   (a.1.1 = b.1.1 /\ (a.1.2 < b.1.2 \/ (a.1.2 = b.1.2 /\ a.2 < b.2))))%Z.

(** [range] yields every entry of the map exactly once. *)
Definition range_complete (range_map : nat -> gmap string Z -> list (string * Z)) : Prop :=
  forall k m, range_map k m ≡ₚ map_to_list m.

(** *** Totals

    The sum of the counts a word map holds, and of the maps of a stream of
    results, as integers: no wrap-around. *)
Definition Zsum (l : list Z) : Z := foldr Z.add 0%Z l.
Definition words_total (m : gmap string Z) : Z := Zsum (map_to_list m).*2.
Definition stream_total (c : list result) : Z :=
  Zsum ((fun r => words_total (wordMap r)) <$> c).

(** The counts the results [c] give the word [w], in order, from the
    results that have it. *)
Definition mentions (w : string) (c : list result) : list Z :=
  omap (fun r => wordMap r !! w) c.
End Spec.

(** ** The goroutines of [Run]

    [Run] starts the walk, 32 scanners and the goroutine that closes [c],
    then receives from [c].  The goroutines meet at channel operations only,
    so that a state of the whole is where each of them stands between two
    such operations, and a step is one operation: a send meeting a receive on
    an unbuffered channel, a receive from a closed channel, the send on the
    buffered [errc].  Which goroutine moves next is the scheduler's choice. *)

Module Pipeline.
Import Float64 GoTime Gurnel.

Definition numScanners : nat := 32.

(** The goroutine of [walkFiles]: inside [filepath.Walk] with the files
    still to visit, blocked in the [select] of line 160 with a path, or
    returned, with the error of [Walk] sent on [errc] and [paths] closed. *)
Inductive walker : Type :=
| Walking (visited : gmap string bool) (todo : list visit)
| Sending (visited : gmap string bool) (todo : list visit) (p : string)
| Walked.

(** A goroutine running [entryScanner]: in [range paths], blocked in the
    [select] of line 182 with a result, or returned. *)
Inductive scanner : Type :=
| Waiting
| Holding (r : result)
| Returned.

(** The goroutine of [Run]: in [range c] with its variables and the number
    of results received, or returned (a panic included). *)
Inductive main : Type :=
| Receiving (st : locals) (k : nat)
| Finished (x : execution).

Record system : Type := mkSystem {
  walker_st : walker;
  errc_buf : option (option error);   (* the buffer of [errc] *)
  scanners : list scanner;
  main_st : main;
  done : bool                         (* whether [done] is closed *)
}.

Inductive choice : Type :=
| WalkNext            (* [Walk] calls the function on the next file, or returns *)
| Hand (i : nat)      (* [paths <- path] meets the receive of scanner [i] *)
| WalkCancel          (* the walker receives from the closed [done] *)
| Leave (i : nat)     (* scanner [i] finds [paths] closed *)
| Deliver (i : nat)   (* [c <- result] of scanner [i] meets [range c] *)
| Drop (i : nat)      (* scanner [i] receives from the closed [done] *)
| Close.              (* [c] is closed: [Run] leaves its loop *)

Definition is_Returned (x : scanner) : bool :=
  match x with Returned => true | _ => false end.

(** The results the scanners are blocked with. *)
Definition holds (x : scanner) : option result :=
  match x with Holding r => Some r | _ => None end.
Definition held (sc : list scanner) : list result := omap holds sc.

(** Every goroutine has returned. *)
Definition final (s : system) : Prop :=
  walker_st s = Walked /\
  forallb is_Returned (scanners s) = true /\
  exists x, main_st s = Finished x.

(** A bound on the steps left: every step takes at least one away. *)
Definition walker_weight (w : walker) : nat :=
  match w with
  | Walking _ todo => 4 * length todo + 1
  | Sending _ todo _ => 4 * length todo + 4
  | Walked => 0
  end.
Definition scanner_weight (x : scanner) : nat :=
  match x with Waiting => 1 | Holding _ => 2 | Returned => 0 end.
Definition main_weight (m : main) : nat :=
  match m with Receiving _ _ => 1 | Finished _ => 0 end.
Definition weight (s : system) : nat :=
  walker_weight (walker_st s)
  + sum_list_with scanner_weight (scanners s)
  + main_weight (main_st s).

Section Pipeline.
Variable refFreqs : gmap string float64.
Variable range_map : nat -> gmap string Z -> list (string * Z).
Variable sort_Slice : forall A : Type, (A -> A -> bool) -> list A -> list A.
Variable IsEntry : string -> bool.
Variable Name : string -> string.
Variable Load : string -> option error.
Variable Words : string -> list string.
Variable Date : string -> Time.
Variable ToLower : string -> string.
(** The value of [time.Now()] at line 58. *)
Variable t : Time.

(** Lines 72-129 of [Run], after the loop: [errc] is what [<-errc] yields. *)
Definition after_loop (st : locals) (k : nat) (errc : option error) : execution :=
  match errc with
  | Some e => {| ret := Return (Some e); stdout := []; taken := k |}
  | None =>
      if gt (entryCount st) zero then
        let '(o, out) := report refFreqs range_map sort_Slice t st k in
        {| ret := o; stdout := out; taken := k |}
      else {| ret := Return None; stdout := []; taken := k |}
  end.

(** Lines 39-59: the goroutines are started on the tree [root], nothing has
    been sent yet. *)
Definition init (root : list visit) : system :=
  {| walker_st := Walking ∅ root;
     errc_buf := None;
     scanners := replicate numScanners Waiting;
     main_st := Receiving {| entryCount := zero; words := ∅; minDate := t |} 0;
     done := false |}.

(** One step of the goroutine(s) [ch] names, [None] when they cannot move.
    [Run] closes [done] when it returns, by the [defer] of line 40. *)
Definition step (ch : choice) (s : system) : option system :=
  match ch with
  | WalkNext =>
      match walker_st s with
      | Walking visited [] =>
          Some {| walker_st := Walked; errc_buf := Some None;
                  scanners := scanners s; main_st := main_st s; done := done s |}
      | Walking visited (v :: todo) =>
          match walk_err v with
          | Some e =>
              Some {| walker_st := Walked; errc_buf := Some (Some e);
                      scanners := scanners s; main_st := main_st s; done := done s |}
          | None =>
              if negb (regular v)
                 || default false (visited !! Name (path v))
                 || negb (IsEntry (path v))
              then
                Some {| walker_st := Walking visited todo; errc_buf := errc_buf s;
                        scanners := scanners s; main_st := main_st s; done := done s |}
              else
                Some {| walker_st :=
                          Sending (<[ Name (path v) := true ]> visited) todo (path v);
                        errc_buf := errc_buf s;
                        scanners := scanners s; main_st := main_st s; done := done s |}
          end
      | _ => None
      end
  | Hand i =>
      match walker_st s, scanners s !! i with
      | Sending visited todo p, Some Waiting =>
          Some {| walker_st := Walking visited todo; errc_buf := errc_buf s;
                  scanners :=
                    <[ i := Holding (scan Load Words Date ToLower p) ]> (scanners s);
                  main_st := main_st s; done := done s |}
      | _, _ => None
      end
  | WalkCancel =>
      match walker_st s with
      | Sending _ _ _ =>
          if done s then
            Some {| walker_st := Walked; errc_buf := Some (Some walk_canceled);
                    scanners := scanners s; main_st := main_st s; done := done s |}
          else None
      | _ => None
      end
  | Leave i =>
      match walker_st s, scanners s !! i with
      | Walked, Some Waiting =>
          Some {| walker_st := walker_st s; errc_buf := errc_buf s;
                  scanners := <[ i := Returned ]> (scanners s);
                  main_st := main_st s; done := done s |}
      | _, _ => None
      end
  | Deliver i =>
      match scanners s !! i, main_st s with
      | Some (Holding r), Receiving st k =>
          match err r with
          | Some e =>
              Some {| walker_st := walker_st s; errc_buf := errc_buf s;
                      scanners := <[ i := Waiting ]> (scanners s);
                      main_st :=
                        Finished {| ret := Return (Some e); stdout := [];
                                    taken := S k |};
                      done := true |}
          | None =>
              Some {| walker_st := walker_st s; errc_buf := errc_buf s;
                      scanners := <[ i := Waiting ]> (scanners s);
                      main_st := Receiving (accumulate range_map k st r) (S k);
                      done := done s |}
          end
      | _, _ => None
      end
  | Drop i =>
      match scanners s !! i with
      | Some (Holding _) =>
          if done s then
            Some {| walker_st := walker_st s; errc_buf := errc_buf s;
                    scanners := <[ i := Returned ]> (scanners s);
                    main_st := main_st s; done := done s |}
          else None
      | _ => None
      end
  | Close =>
      match main_st s, errc_buf s with
      | Receiving st k, Some e =>
          if forallb is_Returned (scanners s) then
            Some {| walker_st := walker_st s; errc_buf := None;
                    scanners := scanners s;
                    main_st := Finished (after_loop st k e);
                    done := true |}
          else None
      | _, _ => None
      end
  end.

(** The steps a scheduler picks, one after the other. *)
Fixpoint exec (sched : list choice) (s : system) : option system :=
  match sched with
  | [] => Some s
  | ch :: sched' =>
      match step ch s with
      | Some s' => exec sched' s'
      | None => None
      end
  end.

(** What holds of every state the goroutines reach from [init root].
    While [Run] receives, [done] is open, the results received so far are
    the loop's state, and the paths handed to the scanners are a prefix of
    what the walk sends, their results received or held; once [Run] has
    returned, [done] is closed and what it returned is [Run] on the results
    it received. *)
Definition inv (root : list visit) (s : system) : Prop :=
  let sent := (walkFiles IsEntry Name None root).1 in
  let e := (walkFiles IsEntry Name None root).2 in
  length (scanners s) = numScanners /\
  match main_st s with
  | Finished x =>
      done s = true /\
      exists c,
        c ⊆+ scan Load Words Date ToLower <$> sent /\
        x = Run refFreqs range_map sort_Slice t c e /\
        (Forall (fun r => err r = None) c ->
         c ≡ₚ scan Load Words Date ToLower <$> sent)
  | Receiving st k =>
      done s = false /\
      exists delivered handed,
        receive range_map 0 {| entryCount := zero; words := ∅; minDate := t |}
          delivered = (inr st, k) /\
        scan Load Words Date ToLower <$> handed ≡ₚ delivered ++ held (scanners s) /\
        match walker_st s with
        | Walking visited todo =>
            errc_buf s = None /\
            Forall (fun x => x <> Returned) (scanners s) /\
            sent = handed ++ (walk IsEntry Name visited None todo).1 /\
            e = (walk IsEntry Name visited None todo).2
        | Sending visited todo p =>
            errc_buf s = None /\
            Forall (fun x => x <> Returned) (scanners s) /\
            sent = handed ++ p :: (walk IsEntry Name visited None todo).1 /\
            e = (walk IsEntry Name visited None todo).2
        | Walked => errc_buf s = Some e /\ sent = handed
        end
  end.
End Pipeline.
End Pipeline.

(** ** Concrete runs *)

Module Examples.
Import Float64 GoTime Gurnel.
Local Open Scope Z_scope.

Definition day (unix_seconds : Z) : Time := unix_seconds * 10 ^ 9.
Definition jan01 : Time := day 1704067200.
Definition jan03 : Time := day 1704240000.
Definition jan10 : Time := day 1704844800.

(** The two entries of the scenario: ["Hi","hi","there"] on Jan 1 and
    ["Hi","world"] on Jan 3, case-folded and counted. *)
Definition entry1 : result :=
  {| wordMap := {[ "hi"%string := 2; "there"%string := 1 ]};
     date := jan01; err := None |}.
Definition entry2 : result :=
  {| wordMap := {[ "hi"%string := 1; "world"%string := 1 ]};
     date := jan03; err := None |}.
(** A file that fails to load: an empty map, the zero date, the error. *)
Definition broken : result :=
  {| wordMap := ∅; date := 0; err := Some "unreadable entry"%string |}.

Definition someRefs : gmap string float64 := {[ "the"%string := one ]}.

(** A hundred distinct two-letter words, "aa" to "jj", each used once in one
    entry of Jan 1. *)
Definition two_letters (i : nat) : string :=
  String (Ascii.ascii_of_nat (97 + i / 10))
    (String (Ascii.ascii_of_nat (97 + i mod 10)) EmptyString).
Definition hundred_words : gmap string Z :=
  list_to_map (map (fun i => (two_letters i, 1)) (seq 0 100)).
Definition long_entry : result :=
  {| wordMap := hundred_words; date := jan01; err := None |}.

Definition half : float64 := Eval vm_compute in div one (of_int 2).
Definition rankRefs : gmap string float64 :=
  {[ "hi"%string := half; "there"%string := half ]}.

(** An entry written an hour before Jan 10. *)
Definition recent_entry : result :=
  {| wordMap := {[ "hi"%string := 1 ]}; date := jan10 - Hour; err := None |}.

(** The last element of a slash-separated path. *)
Fixpoint has_slash (s : string) : bool :=
  match s with
  | EmptyString => false
  | String c s' => Ascii.eqb c (Ascii.ascii_of_nat 47) || has_slash s'
  end.
Fixpoint base (s : string) : string :=
  match s with
  | EmptyString => EmptyString
  | String c s' =>
      if has_slash s' then base s'
      else if Ascii.eqb c (Ascii.ascii_of_nat 47) then s' else s
  end.

(** A tree in walk order: the root directory, then two directories that
    both hold a file [mon.md]. *)
Definition tree : list visit :=
  [ mkVisit "j" false None;
    mkVisit "j/2023" false None;
    mkVisit "j/2023/mon.md" true None;
    mkVisit "j/2023/tue.md" true None;
    mkVisit "j/2024" false None;
    mkVisit "j/2024/mon.md" true None ]%string.

(** A walk that cannot read the directory [j/locked]. *)
Definition locked_tree_before : list visit :=
  [ mkVisit "j" false None; mkVisit "j/mon.md" true None ]%string.
Definition locked_dir : visit :=
  mkVisit "j/locked" false (Some "permission denied"%string).
Definition locked_tree_after : list visit :=
  [ mkVisit "j/tue.md" true None ]%string.

(** [strings.ToLower] on ASCII text. *)
Definition lower_ascii (c : Ascii.ascii) : Ascii.ascii :=
  let n := Ascii.nat_of_ascii c in
  if ((65 <=? n) && (n <=? 90))%nat then Ascii.ascii_of_nat (n + 32) else c.
Fixpoint lower (s : string) : string :=
  match s with
  | EmptyString => EmptyString
  | String c s' => String (lower_ascii c) (lower s')
  end.

(** The entries of [tree]: [mon.md] of 2023 reads "Hi hi there" and is dated
    Jan 1, the other files read "Hi world" and are dated Jan 3.  Every file
    loads in [loads]; in [unreadable], [tue.md] does not. *)
Definition journal_words (p : string) : list string :=
  if String.eqb p "j/2023/mon.md" then ["Hi"; "hi"; "there"]%string
  else ["Hi"; "world"]%string.
Definition journal_date (p : string) : Time :=
  if String.eqb p "j/2023/mon.md" then jan01 else jan03.
Definition loads (_ : string) : option error := None.
Definition unreadable (p : string) : option error :=
  if String.eqb p "j/2023/tue.md" then Some "unreadable entry"%string else None.

(** A schedule for [tree]: the walk hands [mon.md] to scanner 0 and [tue.md]
    to scanner 1 and returns; [Run] receives from scanner 1, then from
    scanner 0; the scanners return and [c] is closed.  Cut after the first
    receive, it is the run in which [tue.md] fails to load. *)
Definition schedule_start : list Pipeline.choice :=
  [ Pipeline.WalkNext; Pipeline.WalkNext; Pipeline.WalkNext; Pipeline.Hand 0;
    Pipeline.WalkNext; Pipeline.Hand 1; Pipeline.WalkNext; Pipeline.WalkNext;
    Pipeline.WalkNext; Pipeline.Deliver 1 ].
Definition schedule : list Pipeline.choice :=
  schedule_start ++ Pipeline.Deliver 0 :: (Pipeline.Leave <$> seq 0 32)
                 ++ [Pipeline.Close].

(** A schedule for the tree with [j/locked]: [mon.md] is handed over, the
    walk fails, the result is received, the scanners return. *)
Definition schedule_locked : list Pipeline.choice :=
  [ Pipeline.WalkNext; Pipeline.WalkNext; Pipeline.Hand 0; Pipeline.WalkNext;
    Pipeline.Deliver 0 ] ++ (Pipeline.Leave <$> seq 0 32) ++ [Pipeline.Close].

(** A tree without entries, and its schedule. *)
Definition empty_tree : list visit := [ mkVisit "j" false None ]%string.
Definition schedule_empty : list Pipeline.choice :=
  [ Pipeline.WalkNext; Pipeline.WalkNext ] ++ (Pipeline.Leave <$> seq 0 32)
  ++ [Pipeline.Close].
End Examples.

Import Float64 GoTime Gurnel Spec Pipeline.

(** ** The receive loop *)

Section Receive.
Variable range_map : nat -> gmap string Z -> list (string * Z).

Lemma add_count_lookup (l : list (string * Z)) (m : gmap string Z) (w : string) :
  NoDup l.*1 ->
  foldl add_count m l !! w =
    match (list_to_map l : gmap string Z) !! w with
    | Some n => Some (wrap64 (default 0%Z (m !! w) + n))
    | None => m !! w
    end.
Proof.
  revert m. induction l as [|[k v] l IH]; intros m Hnd; simpl.
  - by rewrite lookup_empty.
  - apply NoDup_cons in Hnd as [Hk Hnd]. rewrite IH by done.
    unfold add_count at 1 2; simpl. destruct (decide (k = w)) as [->|Hne].
    + rewrite (not_elem_of_list_to_map_1 l w Hk), !lookup_insert_eq. done.
    + by rewrite !lookup_insert_ne.
Qed.

Lemma merge_lookup (k : nat) (m m' : gmap string Z) (w : string) :
  range_complete range_map ->
  foldl add_count m (range_map k m') !! w =
    match m' !! w with
    | Some n => Some (wrap64 (default 0%Z (m !! w) + n))
    | None => m !! w
    end.
Proof.
  intros range_ok. pose proof (range_ok k m') as Hp.
  assert (Hnd : NoDup (range_map k m').*1).
  { rewrite Hp. apply NoDup_fst_map_to_list. }
  rewrite add_count_lookup by done.
  rewrite (list_to_map_proper _ _ Hnd Hp), list_to_map_to_list. done.
Qed.

(** The loop over results without failure, from any state on. *)
Lemma receive_succeeded (c : list result) (k : nat) (st : locals) :
  Forall succeeded c ->
  exists st',
    receive range_map k st c = (inr st', (k + length c)%nat) /\
    entryCount st' = Nat.iter (length c) (fun x => add x one) (entryCount st) /\
    minDate st' = foldl Z.min (minDate st) (date <$> c).
Proof.
  revert k st. induction c as [|r c IH]; intros k st Hok.
  - exists st. simpl. rewrite Nat.add_0_r. done.
  - apply Forall_cons in Hok as [Hr Hok]. red in Hr.
    destruct (IH (S k) (accumulate range_map k st r) Hok) as (st' & Hrec & Hn & Hd).
    exists st'. simpl. rewrite Hr, Hrec. split; [f_equal; lia|]. split.
    + rewrite Hn. symmetry.
      exact (Nat.iter_succ_r (length c) (fun x => add x one) (entryCount st)).
    + rewrite Hd. simpl. f_equal. unfold After.
      destruct (Z.ltb_spec (date r) (minDate st)); lia.
Qed.

(** The merged map when the loop has drained the channel. *)
Lemma receive_words (c : list result) (k n : nat) (st st' : locals) :
  range_complete range_map ->
  Forall succeeded c ->
  receive range_map k st c = (inr st', n) ->
  forall w, words st' !! w = tally w (words st !! w) c.
Proof.
  intros Hrange. revert k st. induction c as [|r c IH]; intros k st Hok Hrec w.
  - simpl in Hrec. by simplify_eq.
  - apply Forall_cons in Hok as [Hr Hok]. red in Hr.
    simpl in Hrec. rewrite Hr in Hrec.
    rewrite (IH _ _ Hok Hrec w). simpl. f_equal. by apply merge_lookup.
Qed.

(** The loop stops at the first failure. *)
Lemma receive_failed (pre post : list result) (r : result) (e : error)
    (k : nat) (st : locals) :
  Forall succeeded pre -> err r = Some e ->
  receive range_map k st (pre ++ r :: post) = (inl e, S (k + length pre)).
Proof.
  revert k st. induction pre as [|p pre IH]; intros k st Hok He; simpl.
  - by rewrite He, Nat.add_0_r.
  - apply Forall_cons in Hok as [Hp Hok]. red in Hp. rewrite Hp.
    rewrite IH by done. do 2 f_equal. lia.
Qed.
End Receive.

(** ** Folding minima and sums over results in any order *)

Lemma foldl_Permutation {A B} (f : B -> A -> B) (l l' : list A) :
  (forall b x y, f (f b x) y = f (f b y) x) ->
  l ≡ₚ l' -> forall b, foldl f b l = foldl f b l'.
Proof.
  intros Hf Hp. induction Hp as [|x l l' _ IH|x y l|l l' l'' _ IH1 _ IH2]; intros b; simpl.
  - done.
  - apply IH.
  - by rewrite Hf.
  - by rewrite IH1, IH2.
Qed.

Lemma foldl_min_le (l : list Z) (a : Z) : (foldl Z.min a l <= a)%Z.
Proof.
  revert a. induction l as [|x l IH]; intros a; simpl; [lia|].
  specialize (IH (Z.min a x)). lia.
Qed.

Lemma foldl_min_lower (l : list Z) (a x : Z) : x ∈ l -> (foldl Z.min a l <= x)%Z.
Proof.
  revert a. induction l as [|y l IH]; intros a Hx; [by apply elem_of_nil in Hx|].
  apply elem_of_cons in Hx as [->|Hx]; simpl.
  - pose proof (foldl_min_le l (Z.min a y)). lia.
  - by apply IH.
Qed.

Lemma foldl_min_attained (l : list Z) (a : Z) :
  foldl Z.min a l = a \/ foldl Z.min a l ∈ l.
Proof.
  revert a. induction l as [|y l IH]; intros a; simpl; [by left|].
  destruct (IH (Z.min a y)) as [Heq|Hin].
  - rewrite Heq. destruct (Z.min_spec a y) as [[_ ->]|[_ ->]]; [by left|right; left].
  - right. by right.
Qed.

Lemma tally_Permutation (w : string) (c c' : list result) (o : option Z) :
  c ≡ₚ c' -> tally w o c = tally w o c'.
Proof.
  intros Hp. unfold tally. apply foldl_Permutation; [|done].
  clear. intros b x y.
  destruct (wordMap x !! w) as [n|], (wordMap y !! w) as [n'|]; simpl; try done.
  f_equal. unfold wrap64.
  rewrite !(Z.add_mod_idemp_l _ _ (2 ^ 64)) by lia. f_equal. lia.
Qed.

(** ** Rounding to binary64, bounded from above

    [binary_round_aux] shifts the mantissa right until it fits 53 bits,
    rounds to nearest even, and shifts once more if the rounding carried.
    The lemmas below follow these steps to show that rounding never takes a
    value across a float that bounds it from above. *)

Section Rounding.
Local Open Scope Z_scope.

Lemma iter_pos_nat {A} (f : A -> A) (p : positive) (x : A) :
  SpecFloat.iter_pos f p x = Nat.iter (Pos.to_nat p) f x.
Proof.
  revert x. induction p as [p IH|p IH|]; intros x; cbn [SpecFloat.iter_pos].
  - rewrite !IH, Pos2Nat.inj_xI, Nat.iter_succ_r.
    replace (2 * Pos.to_nat p)%nat with (Pos.to_nat p + Pos.to_nat p)%nat by lia.
    by rewrite Nat.iter_add.
  - rewrite !IH, Pos2Nat.inj_xO.
    replace (2 * Pos.to_nat p)%nat with (Pos.to_nat p + Pos.to_nat p)%nat by lia.
    by rewrite Nat.iter_add.
  - done.
Qed.

Lemma shr_1_spec (r : shr_record) :
  0 <= shr_m r ->
  0 <= shr_m (shr_1 r) /\
  shr_m r = 2 * shr_m (shr_1 r) + (if shr_r (shr_1 r) then 1 else 0) /\
  shr_s (shr_1 r) = inexact r.
Proof.
  destruct r as [m r s]. unfold inexact. simpl. intros Hm.
  destruct m as [|[p|p|]|p]; simpl; try lia; repeat split; lia.
Qed.

Lemma shr_iter_spec (n : nat) (r : shr_record) :
  0 <= shr_m r ->
  let r' := Nat.iter n shr_1 r in
  0 <= shr_m r' /\
  shr_m r' * 2 ^ Z.of_nat n <= shr_m r < (shr_m r' + 1) * 2 ^ Z.of_nat n /\
  (inexact r' = true <-> shr_m r' * 2 ^ Z.of_nat n < shr_m r \/ inexact r = true).
Proof.
  intros Hm. induction n as [|n IH].
  - simpl. split; [done|]. split; [lia|]. split; [by right|]. intros [?|?]; [lia|done].
  - cbn zeta in *. rewrite Nat2Z.inj_succ, Z.pow_succ_r by lia.
    simpl Nat.iter. set (r1 := Nat.iter n shr_1 r) in *.
    destruct IH as (H0 & Hb & Hi).
    destruct (shr_1_spec r1 H0) as (H0' & Hm' & Hs').
    split; [done|]. split.
    + destruct (shr_r (shr_1 r1)); nia.
    + unfold inexact at 1. rewrite Hs'. split.
      * intros [Hr|Hr]%orb_true_iff.
        -- left. rewrite Hr in Hm'. nia.
        -- apply Hi in Hr as [?|?]; [left|by right].
           destruct (shr_r (shr_1 r1)); nia.
      * intros [Hlt|Hin].
        -- destruct (shr_r (shr_1 r1)) eqn:Hr; [done|]. simpl.
           apply Hi. left. nia.
        -- apply orb_true_iff. right. apply Hi. by right.
Qed.

Lemma p2_pos e : -3000 <= e -> 0 < p2 e.
Proof. intros. unfold p2. apply Z.pow_pos_nonneg; lia. Qed.

Lemma p2_shift e n : -3000 <= e -> 0 <= n -> p2 (e + n) = p2 e * 2 ^ n.
Proof. intros. unfold p2. rewrite <- Z.pow_add_r by lia. f_equal. lia. Qed.

Lemma p2_lt a b : -3000 <= a -> p2 a < p2 b -> a < b.
Proof.
  unfold p2. intros Ha H. destruct (Z.lt_ge_cases a b) as [|Hge]; [done|].
  assert (2 ^ (b + 3000) <= 2 ^ (a + 3000)); [|lia].
  destruct (Z.le_gt_cases 0 (b + 3000)).
  - apply Z.pow_le_mono_r; lia.
  - rewrite (Z.pow_neg_r 2 (b + 3000)) by lia. apply Z.pow_nonneg; lia.
Qed.

Lemma fexp_eq x : fexp 53 1024 x = Z.max (x - 53) (-1074).
Proof. reflexivity. Qed.

Lemma digits_spec (m : positive) :
  2 ^ (Zpos (digits2_pos m) - 1) <= Zpos m < 2 ^ Zpos (digits2_pos m).
Proof.
  induction m as [m IH|m IH|]; cbn [digits2_pos].
  - rewrite Pos2Z.inj_succ. change (Zpos m~1) with (2 * Zpos m + 1).
    replace (Z.succ (Zpos (digits2_pos m)) - 1) with (Z.succ (Zpos (digits2_pos m) - 1)) by lia.
    rewrite !Z.pow_succ_r by lia. lia.
  - rewrite Pos2Z.inj_succ. change (Zpos m~0) with (2 * Zpos m).
    replace (Z.succ (Zpos (digits2_pos m)) - 1) with (Z.succ (Zpos (digits2_pos m) - 1)) by lia.
    rewrite !Z.pow_succ_r by lia. lia.
  - change (2 ^ 0 <= 1 < 2 ^ 1). lia.
Qed.

Lemma canonical_bounds (mb : positive) (eb : Z) :
  canonical_mantissa 53 1024 mb eb = true ->
  -1074 <= eb /\ Zpos (digits2_pos mb) <= 53 /\ Zpos mb < 2 ^ 53 /\
  fexp 53 1024 (Zpos (digits2_pos mb) + eb) = eb.
Proof.
  unfold canonical_mantissa. intros H%Z.eqb_eq. pose proof H as H'.
  rewrite fexp_eq in H. split; [lia|]. split; [lia|]. split; [|done].
  pose proof (digits_spec mb) as [_ Hlt].
  eapply Z.lt_le_trans; [exact Hlt|]. apply Z.pow_le_mono_r; lia.
Qed.

Lemma record_of_loc_spec (m : Z) (l : location) :
  shr_m (shr_record_of_loc m l) = m /\
  inexact (shr_record_of_loc m l) = negb (is_exact l).
Proof. by destruct l as [|[]]. Qed.

Lemma round_record (r : shr_record) :
  let m1 := round_nearest_even (shr_m r) (loc_of_shr_record r) in
  shr_m r <= m1 <= shr_m r + (if inexact r then 1 else 0).
Proof.
  destruct r as [m [] []]; unfold inexact; simpl; try lia.
  destruct (Z.even m); lia.
Qed.

Lemma shr_spec (r : shr_record) (e n : Z) :
  0 <= shr_m r ->
  let k := Z.max 0 n in
  let r' := (shr r e n).1 in
  (shr r e n).2 = e + k /\
  0 <= shr_m r' /\
  shr_m r' * 2 ^ k <= shr_m r < (shr_m r' + 1) * 2 ^ k /\
  (inexact r' = true <-> shr_m r' * 2 ^ k < shr_m r \/ inexact r = true).
Proof.
  intros Hm. cbn zeta. destruct n as [|p|p]; cbn [shr fst snd].
  - change (Z.max 0 0) with 0. rewrite Z.pow_0_r.
    split; [lia|]. split; [done|]. split; [lia|]. split; [by right|]. intros [?|?]; [lia|done].
  - rewrite iter_pos_nat.
    pose proof (shr_iter_spec (Pos.to_nat p) r Hm) as H. cbn zeta in H.
    rewrite positive_nat_Z in H. rewrite Z.max_r by lia. split; [lia|]. exact H.
  - rewrite Z.max_l by lia. rewrite Z.pow_0_r.
    split; [lia|]. split; [done|]. split; [lia|]. split; [by right|]. intros [?|?]; [lia|done].
Qed.

Lemma round_aux_le (m e : Z) (l : location) (mb : positive) (eb : Z) :
  0 <= m -> -3000 <= e ->
  canonical_mantissa 53 1024 mb eb = true -> eb <= 918 ->
  (m + (if is_exact l then 0 else 1)) * p2 e <= Zpos mb * p2 eb ->
  le_float (binary_round_aux 53 1024 false m e l) mb eb.
Proof.
  intros Hm He Hcan Heb Hle.
  destruct (canonical_bounds mb eb Hcan) as (Heb0 & Hdb & Hmb & Hfexp).
  pose proof (p2_pos e He) as HP.
  unfold binary_round_aux, shr_fexp.
  set (n := fexp 53 1024 (Zdigits2 m + e) - e).
  destruct (record_of_loc_spec m l) as [Hrm Hri].
  pose proof (shr_spec (shr_record_of_loc m l) e n) as H1.
  rewrite Hrm in H1. specialize (H1 Hm). cbn zeta in H1.
  destruct (shr (shr_record_of_loc m l) e n) as [r1 e1]. cbn [fst snd] in H1.
  destruct H1 as (He1 & Hr1 & Hb1 & Hi1). rewrite Hri in Hi1.
  pose proof (round_record r1) as Hround. cbn zeta in Hround.
  set (m1 := round_nearest_even (shr_m r1) (loc_of_shr_record r1)) in *.
  assert (HA : m1 * p2 e1 <= Zpos mb * p2 eb /\ -1074 <= e1).
  { destruct (Z.le_gt_cases n 0) as [Hn|Hn].
    - rewrite Z.max_l in * by lia. rewrite Z.pow_0_r in *. rewrite Z.add_0_r in He1. subst e1.
      split; [|subst n; rewrite fexp_eq in Hn; lia].
      destruct (is_exact l); simpl in Hi1.
      + destruct (inexact r1); [destruct Hi1 as [[?|?] _]; [done|lia|done]|]. nia.
      + destruct (inexact r1); nia.
    - rewrite Z.max_r in * by lia.
      assert (He1lo : -1074 <= e1) by (subst e1 n; rewrite fexp_eq; lia).
      split; [|done].
      assert (He1eb : e1 <= eb).
      { subst e1 n. destruct m as [|pm|pm]; [| |lia].
        - simpl Zdigits2 in *. rewrite fexp_eq in *. lia.
        - simpl Zdigits2 in *. pose proof (digits_spec pm) as [Hd _].
          pose proof (digits_spec mb) as [_ Hd'].
          assert (p2 (e + (Zpos (digits2_pos pm) - 1)) < p2 (eb + Zpos (digits2_pos mb))).
          { rewrite !p2_shift by lia. pose proof (p2_pos eb ltac:(lia)).
            destruct (is_exact l); nia. }
          apply p2_lt in H; [|lia]. rewrite <- Hfexp. rewrite !fexp_eq. lia. }
      replace eb with (e1 + (eb - e1)) in Hle |- * by lia.
      rewrite (p2_shift e1 (eb - e1)) in Hle |- * by lia.
      rewrite He1 in Hle |- *. rewrite (p2_shift e n) in Hle |- * by lia.
      assert (0 < 2 ^ n) by (apply Z.pow_pos_nonneg; lia).
      assert (0 < 2 ^ (eb - (e + n))) by (apply Z.pow_pos_nonneg; lia).
      set (T := 2 ^ n) in *. set (U := 2 ^ (eb - (e + n))) in *. set (P := p2 e) in *.
      assert (HX : m + (if is_exact l then 0 else 1) <= Zpos mb * U * T) by nia.
      assert (m1 <= Zpos mb * U); [|nia].
      destruct (inexact r1).
      + assert (shr_m r1 * T < Zpos mb * U * T).
        { destruct Hi1 as [[?|Hl] _]; [done| |]; destruct (is_exact l); try done; lia. }
        assert (shr_m r1 < Zpos mb * U) by nia. lia.
      + assert (shr_m r1 * T <= Zpos mb * U * T) by (destruct (is_exact l); lia).
        assert (shr_m r1 <= Zpos mb * U) by nia. lia. }
  destruct HA as [HA He1lo].
  set (n2 := fexp 53 1024 (Zdigits2 m1 + e1) - e1).
  destruct (record_of_loc_spec m1 loc_Exact) as [Hrm2 _].
  pose proof (shr_spec (shr_record_of_loc m1 loc_Exact) e1 n2) as H2.
  rewrite Hrm2 in H2. specialize (H2 ltac:(lia)). cbn zeta in H2.
  destruct (shr (shr_record_of_loc m1 loc_Exact) e1 n2) as [r2 e2]. cbn [fst snd] in H2.
  destruct H2 as (He2 & Hr2 & Hb2 & _).
  assert (HB : shr_m r2 * p2 e2 <= Zpos mb * p2 eb).
  { rewrite He2, p2_shift by lia. pose proof (p2_pos e1 ltac:(lia)).
    assert (0 < 2 ^ Z.max 0 n2) by (apply Z.pow_pos_nonneg; lia). nia. }
  destruct (shr_m r2) as [|m2|m2] eqn:Hm2; [done| |lia].
  assert (He2hi : e2 <= 971).
  { assert (p2 e2 < p2 (eb + 53)); [|apply p2_lt in H; lia].
    rewrite (p2_shift eb 53) by lia. pose proof (p2_pos eb ltac:(lia)).
    pose proof (p2_pos e2 ltac:(lia)). nia. }
  replace (e2 <=? 1024 - 53) with true by (symmetry; apply Z.leb_le; lia).
  simpl. split; [lia|done].
Qed.

Lemma iter_xO_spec (m d : positive) :
  Zpos (Pos.iter xO m d) = Zpos m * 2 ^ Zpos d.
Proof.
  induction d as [|d IH] using Pos.peano_ind.
  - simpl. lia.
  - rewrite Pos.iter_succ, Pos2Z.inj_succ, Z.pow_succ_r by lia.
    change (Zpos (Pos.iter xO m d)~0) with (2 * Zpos (Pos.iter xO m d)). lia.
Qed.

Lemma shl_align_spec (mx : positive) (ex ex' : Z) :
  let '(m', e') := shl_align mx ex ex' in
  e' = Z.min ex ex' /\ Zpos m' = Zpos mx * 2 ^ (ex - e').
Proof.
  unfold shl_align. destruct (ex' - ex) as [|d|d] eqn:Hd.
  - rewrite Z.min_l by lia. by rewrite Z.sub_diag, Z.pow_0_r, Z.mul_1_r.
  - rewrite Z.min_l by lia. by rewrite Z.sub_diag, Z.pow_0_r, Z.mul_1_r.
  - rewrite Z.min_r by lia. split; [done|]. rewrite iter_xO_spec. do 2 f_equal. lia.
Qed.

Lemma shl_align_value (mx : positive) (ex ex' : Z) :
  -3000 <= ex -> -3000 <= ex' ->
  let '(m', e') := shl_align mx ex ex' in
  -3000 <= e' /\ Zpos m' * p2 e' = Zpos mx * p2 ex.
Proof.
  intros Hex Hex'. pose proof (shl_align_spec mx ex ex') as H.
  destruct (shl_align mx ex ex') as [m' e']. destruct H as [He' Hm'].
  split; [lia|]. rewrite Hm'. replace ex with (e' + (ex - e')) at 2 by lia.
  rewrite p2_shift by lia. lia.
Qed.

Lemma binary_round_le (mx : positive) (ex : Z) (mb : positive) (eb : Z) :
  -3000 <= ex ->
  canonical_mantissa 53 1024 mb eb = true -> eb <= 918 ->
  Zpos mx * p2 ex <= Zpos mb * p2 eb ->
  le_float (binary_round 53 1024 false mx ex) mb eb.
Proof.
  intros Hex Hcan Heb Hle. unfold binary_round.
  pose proof (shl_align_value mx ex (fexp 53 1024 (Zpos (digits2_pos mx) + ex)) Hex) as H.
  rewrite fexp_eq in *. specialize (H ltac:(lia)).
  destruct (shl_align mx ex _) as [mz ez]. destruct H as [Hez Hv].
  apply round_aux_le; try done. simpl. lia.
Qed.

Lemma of_int_le (n : Z) (mb : positive) (eb : Z) :
  0 <= n ->
  canonical_mantissa 53 1024 mb eb = true -> eb <= 918 ->
  n * p2 0 <= Zpos mb * p2 eb ->
  le_float (of_int n) mb eb.
Proof.
  intros Hn Hcan Heb Hle. unfold of_int, binary_normalize.
  destruct n as [|n|n]; [done| |lia]. by apply binary_round_le.
Qed.

Lemma new_location_exact (nb r : Z) :
  is_exact (new_location nb r) = (r =? 0).
Proof.
  unfold new_location, new_location_even, new_location_odd.
  by destruct (Z.even nb), (r =? 0).
Qed.

Lemma le_float_trans (x : spec_float) (mb : positive) (eb : Z) (mb' : positive) (eb' : Z) :
  le_float x mb eb -> Zpos mb * p2 eb <= Zpos mb' * p2 eb' -> le_float x mb' eb'.
Proof. destruct x as [[]|[]| |[] m e]; simpl; try done. intros [??] ?. split; lia. Qed.

Lemma div_le (x : spec_float) (my : positive) (ey : Z) (mbx : positive) (ebx : Z)
    (mb : positive) (eb : Z) :
  le_float x mbx ebx ->
  -1074 <= ey <= 971 ->
  canonical_mantissa 53 1024 mb eb = true -> eb <= 918 ->
  Zpos mbx * p2 ebx <= Zpos mb * Zpos my * p2 (eb + ey) ->
  le_float (SFdiv 53 1024 x (S754_finite false my ey)) mb eb.
Proof.
  intros Hx Hey Hcan Heb Hle.
  destruct x as [[]|[]| |[] mx ex]; simpl in Hx; try done.
  destruct Hx as [Hex Hx].
  destruct (canonical_bounds mb eb Hcan) as (Heb0 & Hdb & Hmb & Hfexp).
  assert (Hv : Zpos mx * p2 ex <= Zpos mb * Zpos my * p2 (eb + ey)) by lia.
  clear Hle Hx.
  unfold SFdiv, SFdiv_core_binary. cbn [xorb Zdigits2].
  set (d1 := Zpos (digits2_pos mx)). set (d2 := Zpos (digits2_pos my)).
  set (e' := Z.min (fexp 53 1024 (d1 + ex - (d2 + ey))) (ex - ey)).
  set (s := ex - ey - e').
  assert (He'lo : -3000 <= e' + ey) by (subst e'; rewrite fexp_eq; lia).
  assert (He'lo2 : -3000 <= e') by (subst e'; rewrite fexp_eq; lia).
  assert (Hs : 0 <= s) by (subst s e'; lia).
  set (m' := match s with Zpos _ => Z.shiftl (Zpos mx) s | Z0 => Zpos mx | Zneg _ => 0 end).
  assert (Hm' : m' = Zpos mx * 2 ^ s).
  { subst m'. destruct s as [|p|p]; [by rewrite Z.pow_0_r, Z.mul_1_r| |lia].
    by rewrite Z.shiftl_mul_pow2. }
  pose proof (Z_div_mod m' (Zpos my) ltac:(lia)) as Hdiv.
  destruct (Z.div_eucl m' (Zpos my)) as [q r]. destruct Hdiv as [Hqr Hr].
  assert (0 < 2 ^ s) by (apply Z.pow_pos_nonneg; lia).
  assert (Hq : 0 <= q) by nia.
  assert (He'eb : e' <= eb).
  { pose proof (digits_spec mx) as [Hd1 _]. pose proof (digits_spec my) as [_ Hd2].
    pose proof (digits_spec mb) as [_ Hdb'].
    fold d1 in Hd1. fold d2 in Hd2.
    assert (p2 (ex + (d1 - 1)) < p2 (eb + ey + (Zpos (digits2_pos mb) + d2))).
    { rewrite !p2_shift by lia. rewrite Z.pow_add_r by lia.
      pose proof (p2_pos (eb + ey) ltac:(lia)). pose proof (p2_pos ex ltac:(lia)).
      assert (Zpos mb * Zpos my < 2 ^ Zpos (digits2_pos mb) * 2 ^ d2) by nia.
      nia. }
    apply p2_lt in H0; [|lia]. subst e'. rewrite <- Hfexp, !fexp_eq. lia. }
  apply round_aux_le; [exact Hq|exact He'lo2|exact Hcan|exact Heb|].
  rewrite new_location_exact.
  replace eb with (e' + (eb - e')) at 1 by lia. rewrite (p2_shift e') by lia.
  replace (eb + ey) with (e' + ey + (eb - e')) in Hv by lia.
  replace ex with (e' + ey + s) in Hv by lia.
  rewrite (p2_shift (e' + ey) s), (p2_shift (e' + ey) (eb - e')) in Hv by lia.
  pose proof (p2_pos (e' + ey) He'lo). pose proof (p2_pos e' ltac:(lia)).
  assert (0 < 2 ^ (eb - e')) by (apply Z.pow_pos_nonneg; lia).
  set (U := 2 ^ (eb - e')) in *.
  assert (Hm'le : m' <= Zpos mb * U * Zpos my) by nia.
  assert (q + (if r =? 0 then 0 else 1) <= Zpos mb * U); [|nia].
  destruct (Z.eqb_spec r 0); nia.
Qed.

Lemma p2_nonneg e : 0 <= p2 e.
Proof. unfold p2. apply Z.pow_nonneg. lia. Qed.

Lemma add_le (x y : spec_float) (mbx : positive) (ebx : Z) (mby : positive) (eby : Z)
    (mb : positive) (eb : Z) :
  le_float x mbx ebx -> le_float y mby eby ->
  canonical_mantissa 53 1024 mb eb = true -> eb <= 918 ->
  Zpos mbx * p2 ebx + Zpos mby * p2 eby <= Zpos mb * p2 eb ->
  le_float (SFadd 53 1024 x y) mb eb.
Proof.
  intros Hx Hy Hcan Heb Hle.
  pose proof (p2_nonneg ebx). pose proof (p2_nonneg eby).
  assert (Hxb : le_float x mb eb) by (apply (le_float_trans x mbx ebx); [done|nia]).
  assert (Hyb : le_float y mb eb) by (apply (le_float_trans y mby eby); [done|nia]).
  destruct x as [[]|[]| |[] mx ex], y as [[]|[]| |[] my ey]; try done.
  destruct Hx as [Hex Hx], Hy as [Hey Hy].
  unfold SFadd. cbn [cond_Zopp].
  pose proof (shl_align_spec mx ex (Z.min ex ey)) as Hax.
  pose proof (shl_align_spec my ey (Z.min ex ey)) as Hay.
  destruct (shl_align mx ex (Z.min ex ey)) as [ax ex'].
  destruct (shl_align my ey (Z.min ex ey)) as [ay ey'].
  destruct Hax as [Hex' Hax], Hay as [Hey' Hay]. cbn [fst].
  change (Zpos ax + Zpos ay) with (Zpos (ax + ay)). cbn [binary_normalize].
  apply binary_round_le; [lia|done|done|].
  rewrite Pos2Z.inj_add, Hax, Hay.
  assert (Hpx : p2 ex = p2 (Z.min ex ey) * 2 ^ (ex - ex')).
  { rewrite <- p2_shift by lia. f_equal. lia. }
  assert (Hpy : p2 ey = p2 (Z.min ex ey) * 2 ^ (ey - ey')).
  { rewrite <- p2_shift by lia. f_equal. lia. }
  rewrite Hpx in Hx. rewrite Hpy in Hy. nia.
Qed.

Lemma Floor_below_one (x : spec_float) (mb : positive) (eb : Z) :
  le_float x mb eb -> Zpos mb * p2 eb < p2 0 -> Floor x = S754_zero false.
Proof.
  intros Hx Hlt. destruct x as [[]|[]| |[] m e]; try done.
  destruct Hx as [He Hx]. unfold Floor. cbn [cond_Zopp].
  pose proof (p2_pos e ltac:(lia)) as HP.
  destruct (Z.leb_spec 0 e) as [H0|H0].
  - exfalso. assert (Hpe : p2 e = p2 0 * 2 ^ e).
    { rewrite <- p2_shift by lia. f_equal. }
    assert (0 < 2 ^ e) by (apply Z.pow_pos_nonneg; lia).
    pose proof (p2_pos 0 ltac:(lia)).
    assert (p2 0 * 1 <= p2 0 * 2 ^ e) by (apply Z.mul_le_mono_nonneg_l; lia).
    rewrite Hpe in Hx. nia.
  - rewrite Z.shiftr_div_pow2 by lia.
    assert (Hp0 : p2 0 = p2 e * 2 ^ (- e)).
    { rewrite <- p2_shift by lia. f_equal. lia. }
    rewrite Hp0 in Hlt. rewrite Z.div_small; [done|]. split; [lia|nia].
Qed.
End Rounding.

(** ** Rounding to binary64, bounded from below

    A value of at least [2^L], with [L] in the range of normal floats, keeps
    53 bits through both shifts, so that rounding leaves it at [2^L] or
    above: a count that is incremented never comes back to zero. *)

Section RoundingBelow.
Local Open Scope Z_scope.

Lemma p2_le a b : -3000 <= a -> a <= b -> p2 a <= p2 b.
Proof. intros. unfold p2. apply Z.pow_le_mono_r; lia. Qed.

Lemma shr_fexp_ge (m e : Z) (l : location) (L : Z) :
  0 < m -> -3000 <= e -> -1022 <= L -> p2 L <= m * p2 e ->
  let r' := (shr_fexp 53 1024 m e l).1 in
  let e' := (shr_fexp 53 1024 m e l).2 in
  0 < shr_m r' /\ p2 L <= shr_m r' * p2 e' /\ e <= e' /\ -1074 <= e'.
Proof.
  intros Hm He HL Hle. cbn zeta. unfold shr_fexp.
  set (n := fexp 53 1024 (Zdigits2 m + e) - e).
  destruct (record_of_loc_spec m l) as [Hrm _].
  pose proof (shr_spec (shr_record_of_loc m l) e n) as H1.
  rewrite Hrm in H1. specialize (H1 ltac:(lia)). cbn zeta in H1.
  destruct (shr (shr_record_of_loc m l) e n) as [r1 e1]. cbn [fst snd] in *.
  destruct H1 as (He1 & Hr1 & Hb1 & _).
  destruct (Z.le_gt_cases n 0) as [Hn|Hn].
  - rewrite Z.max_l in * by lia. rewrite Z.pow_0_r in Hb1.
    replace e1 with e by lia. replace (shr_m r1) with m by lia.
    assert (-1074 <= e) by (subst n; rewrite fexp_eq in Hn; lia). lia.
  - rewrite Z.max_r in * by lia.
    assert (-1074 <= e1) by (subst n; rewrite fexp_eq in He1; lia).
    destruct m as [|pm|pm]; try lia. cbn [Zdigits2] in n.
    pose proof (digits_spec pm) as [Hd Hd'].
    set (d := Zpos (digits2_pos pm)) in *.
    pose proof (p2_pos e He) as HP.
    assert (HLd : L < e + d).
    { apply (p2_lt L (e + d)); [lia|]. rewrite p2_shift by lia. nia. }
    assert (Hnd : n = d - 53) by (subst n; rewrite fexp_eq; lia).
    assert (H2n : 2 ^ (d - 1) = 2 ^ 52 * 2 ^ n).
    { rewrite <- Z.pow_add_r by lia. f_equal. lia. }
    assert (0 < 2 ^ n) by (apply Z.pow_pos_nonneg; lia).
    assert (Hm' : 2 ^ 52 <= shr_m r1) by nia.
    split; [lia|]. split; [|lia].
    transitivity (p2 (e + d - 1)); [apply p2_le; lia|].
    replace (e + d - 1) with (e1 + 52) by lia. rewrite p2_shift by lia.
    pose proof (p2_pos e1 ltac:(lia)). nia.
Qed.

Lemma round_aux_ge (s : bool) (m e : Z) (l : location) (L : Z) :
  0 < m -> -3000 <= e -> -1022 <= L -> p2 L <= m * p2 e ->
  ge_float (SFabs (binary_round_aux 53 1024 s m e l)) L /\
  (s = false -> ge_float (binary_round_aux 53 1024 s m e l) L).
Proof.
  intros Hm He HL Hle. unfold binary_round_aux.
  pose proof (shr_fexp_ge m e l L Hm He HL Hle) as H1. cbn zeta in H1.
  destruct (shr_fexp 53 1024 m e l) as [r1 e1]. cbn [fst snd] in H1.
  destruct H1 as (Hr1 & Hv1 & He1 & _).
  pose proof (round_record r1) as Hround. cbn zeta in Hround.
  set (m1 := round_nearest_even (shr_m r1) (loc_of_shr_record r1)) in *.
  pose proof (p2_pos e1 ltac:(lia)) as HP1.
  pose proof (shr_fexp_ge m1 e1 loc_Exact L ltac:(lia) ltac:(lia) HL ltac:(nia)) as H2.
  cbn zeta in H2.
  destruct (shr_fexp 53 1024 m1 e1 loc_Exact) as [r2 e2]. cbn [fst snd] in H2.
  destruct H2 as (Hr2 & Hv2 & He2 & He2lo).
  destruct (shr_m r2) as [|m2|m2]; try lia.
  destruct (e2 <=? 1024 - 53); simpl.
  - split; [split; [lia|done]|]. intros ->. split; [lia|done].
  - split; [done|by intros ->].
Qed.

Lemma binary_round_ge (mx : positive) (ex : Z) (L : Z) :
  -3000 <= ex -> -1022 <= L -> p2 L <= Zpos mx * p2 ex ->
  ge_float (binary_round 53 1024 false mx ex) L.
Proof.
  intros Hex HL Hle. unfold binary_round.
  pose proof (shl_align_value mx ex (fexp 53 1024 (Zpos (digits2_pos mx) + ex)) Hex) as H.
  rewrite fexp_eq in *. specialize (H ltac:(lia)).
  destruct (shl_align mx ex _) as [mz ez]. destruct H as [Hez Hv].
  apply round_aux_ge; [lia|lia|done|lia|done].
Qed.

(** Adding 1 to +0, to a float that is at least 1, or to +Inf gives a float
    that is at least 1, or +Inf. *)
Lemma add_one_ge (x : float64) :
  x = zero \/ ge_float x 0 -> ge_float (add x one) 0.
Proof.
  intros [->|Hx]; [by vm_compute|].
  destruct x as [[]|[]| |[] mx ex]; try done. destruct Hx as [Hex Hx].
  unfold add, one, SFadd. cbn [cond_Zopp].
  pose proof (shl_align_spec mx ex (Z.min ex (-52))) as Hax.
  pose proof (shl_align_spec 4503599627370496 (-52) (Z.min ex (-52))) as Hay.
  destruct (shl_align mx ex (Z.min ex (-52))) as [ax ex'].
  destruct (shl_align 4503599627370496 (-52) (Z.min ex (-52))) as [ay ey'].
  destruct Hax as [Hex' Hax], Hay as [Hey' Hay]. cbn [fst].
  change (Zpos ax + Zpos ay) with (Zpos (ax + ay)). cbn [binary_normalize].
  apply binary_round_ge; [lia|lia|].
  rewrite Pos2Z.inj_add, Hax.
  assert (Hpx : p2 ex = p2 (Z.min ex (-52)) * 2 ^ (ex - ex')).
  { rewrite <- p2_shift by lia. f_equal. lia. }
  rewrite Hpx in Hx. pose proof (p2_nonneg (Z.min ex (-52))). nia.
Qed.

Lemma counted_ge (n : nat) : ge_float (counted (S n)) 0.
Proof.
  induction n as [|n IH]; [by vm_compute|].
  change (counted (S (S n))) with (add (counted (S n)) one).
  apply add_one_ge. by right.
Qed.

Lemma counted_positive (n : nat) : gt (counted n) zero = negb (Nat.eqb n 0).
Proof.
  destruct n as [|n]; [done|]. pose proof (counted_ge n) as H.
  by destruct (counted (S n)) as [[]|[]| |[] m e].
Qed.
Lemma p2_le_inv a b : -3000 <= a -> p2 a <= p2 b -> a <= b.
Proof.
  intros Ha Hle. destruct (Z.le_gt_cases a b) as [|Hlt]; [done|].
  pose proof (p2_pos a Ha).
  destruct (Z.le_gt_cases (-3000) b) as [Hb|Hb].
  - pose proof (p2_shift b (a - b) Hb ltac:(lia)) as Hs.
    replace (b + (a - b)) with a in Hs by lia.
    assert (2 ^ 1 <= 2 ^ (a - b)) by (apply Z.pow_le_mono_r; lia).
    pose proof (p2_pos b Hb). nia.
  - unfold p2 in Hle at 2. rewrite Z.pow_neg_r in Hle by lia. lia.
Qed.

Lemma div_ge (x y : float64) (Lx Ly : Z) :
  ge_float x Lx -> le_float y 1 Ly -> Ly <= 1024 -> -1022 <= Lx - Ly ->
  ge_float (div x y) (Lx - Ly).
Proof.
  intros Hx Hy HLy HL.
  destruct x as [[]|[]| |[] mx ex]; simpl in Hx; try done;
    destruct y as [[]|[]| |[] my ey]; simpl in Hy; try done.
  destruct Hx as [Hex Hx], Hy as [Hey Hy].
  pose proof (p2_pos ey ltac:(lia)) as HPey.
  assert (HeyLy : ey <= Ly).
  { apply p2_le_inv; [lia|]. nia. }
  unfold div, prec, emax, SFdiv, SFdiv_core_binary. cbn [xorb Zdigits2].
  set (d1 := Zpos (digits2_pos mx)). set (d2 := Zpos (digits2_pos my)).
  set (e' := Z.min (fexp 53 1024 (d1 + ex - (d2 + ey))) (ex - ey)).
  set (s := ex - ey - e').
  assert (He'lo : -3000 <= e' + ey) by (subst e'; rewrite fexp_eq; lia).
  assert (He'lo2 : -3000 <= e') by (subst e'; rewrite fexp_eq; lia).
  assert (Hs : 0 <= s) by (subst s e'; lia).
  set (m' := match s with Zpos _ => Z.shiftl (Zpos mx) s | Z0 => Zpos mx | Zneg _ => 0 end).
  assert (Hm' : m' = Zpos mx * 2 ^ s).
  { subst m'. destruct s as [|p|p]; [by rewrite Z.pow_0_r, Z.mul_1_r| |lia].
    by rewrite Z.shiftl_mul_pow2. }
  pose proof (Z_div_mod m' (Zpos my) ltac:(lia)) as Hdiv.
  destruct (Z.div_eucl m' (Zpos my)) as [q r]. destruct Hdiv as [Hqr Hr].
  assert (H2s : 0 < 2 ^ s) by (apply Z.pow_pos_nonneg; lia).
  pose proof (p2_pos e' He'lo2) as HPe'.
  pose proof (p2_pos (e' + ey) He'lo) as HPe'ey.
  destruct (Z.le_gt_cases e' (Lx - Ly)) as [Hcase|Hcase].
  - (* the quotient keeps the bits above 2^L *)
    assert (Hmy : Zpos my <= 2 ^ (Ly - ey)).
    { replace Ly with (ey + (Ly - ey)) in Hy by lia.
      rewrite p2_shift in Hy by lia. nia. }
    assert (Hmx : 2 ^ (Lx - ey - e') <= m').
    { rewrite Hm'. replace Lx with (e' + ey + (Lx - ey - e')) in Hx by lia.
      replace ex with (e' + ey + s) in Hx by lia.
      rewrite (p2_shift (e' + ey) s), (p2_shift (e' + ey) (Lx - ey - e')) in Hx by lia.
      apply (Z.mul_le_mono_pos_l _ _ (p2 (e' + ey))); lia. }
    assert (Hsplit : 2 ^ (Lx - ey - e') = 2 ^ (Lx - Ly - e') * 2 ^ (Ly - ey)).
    { rewrite <- Z.pow_add_r by lia. f_equal. lia. }
    assert (0 < 2 ^ (Lx - Ly - e')) by (apply Z.pow_pos_nonneg; lia).
    assert (Hq : 2 ^ (Lx - Ly - e') <= q) by nia.
    apply round_aux_ge; [lia|done|done| |done].
    replace (Lx - Ly) with (e' + (Lx - Ly - e')) at 1 by lia.
    rewrite p2_shift by lia. nia.
  - (* the quotient has 53 bits *)
    pose proof (digits_spec mx) as [Hd1 _]. pose proof (digits_spec my) as [_ Hd2].
    fold d1 in Hd1. fold d2 in Hd2.
    assert (Hsd : d2 - d1 + 53 <= s).
    { subst s e'. rewrite fexp_eq in *. lia. }
    assert (d1 >= 1) by (subst d1; lia).
    assert (d2 >= 1) by (subst d2; lia).
    assert (Hpow : 2 ^ d2 <= 2 ^ (d1 - 1) * 2 ^ s).
    { rewrite <- Z.pow_add_r by lia. apply Z.pow_le_mono_r; lia. }
    assert (Hq : 1 <= q) by nia.
    apply round_aux_ge; [lia|done|done| |done].
    transitivity (p2 e'); [apply p2_le; lia|nia].
Qed.

Lemma of_int_ge (n : Z) : 1 <= n -> ge_float (of_int n) 0.
Proof.
  intros Hn. unfold of_int, binary_normalize.
  destruct n as [|n|n]; [lia| |lia].
  apply binary_round_ge; [lia|lia|]. pose proof (p2_pos 0 ltac:(lia)). nia.
Qed.

(** A count of at least 1 over a total below [2^64] is a frequency above
    zero: the quotient of the two floats is at least [2^-64]. *)
Lemma frequency_positive (count wordCount : Z) :
  1 <= count -> 1 <= wordCount < 2 ^ 64 ->
  gt (div (of_int count) (of_int wordCount)) zero = true.
Proof.
  intros Hc Hw.
  assert (H : ge_float (div (of_int count) (of_int wordCount)) (0 - 64)).
  { apply div_ge; [by apply of_int_ge| |lia|lia].
    apply (le_float_trans _ 4503599627370496 12).
    - apply of_int_le; [lia|reflexivity|lia|].
      transitivity (2 ^ 64 * p2 0); [apply Z.mul_le_mono_nonneg_r; [apply p2_nonneg|lia]|].
      apply Z.leb_le. vm_compute. reflexivity.
    - apply Z.leb_le. vm_compute. reflexivity. }
  by destruct (div (of_int count) (of_int wordCount)) as [[]|[]| |[] m e].
Qed.
End RoundingBelow.

(** ** Floats of the format

    What [binary_round_aux] returns is a binary64: the quotient of two floats
    is one, and multiplying one by -1 is changing its sign. *)

Section Format.
Local Open Scope Z_scope.

Lemma digits_unique (m : positive) (k : Z) :
  2 ^ (k - 1) <= Zpos m < 2 ^ k -> Zpos (digits2_pos m) = k.
Proof.
  intros [Hlo Hhi]. pose proof (digits_spec m) as [Hlo' Hhi'].
  set (d := Zpos (digits2_pos m)) in *.
  assert (0 < d) by (subst d; lia).
  assert (0 < k).
  { destruct (Z.lt_ge_cases 0 k); [done|].
    assert (2 ^ k <= 2 ^ 0) by (apply Z.pow_le_mono_r; lia). lia. }
  assert (k - 1 < d) by (apply (Z.pow_lt_mono_r_iff 2); lia).
  assert (d - 1 < k) by (apply (Z.pow_lt_mono_r_iff 2); lia).
  lia.
Qed.

(** Shifting by nothing changes nothing. *)
Lemma shr_fexp_canonical (m : positive) (e : Z) :
  fexp 53 1024 (Zpos (digits2_pos m) + e) = e ->
  shr_m (shr_fexp 53 1024 (Zpos m) e loc_Exact).1 = Zpos m /\
  (shr_fexp 53 1024 (Zpos m) e loc_Exact).2 = e.
Proof.
  intros Hcan. unfold shr_fexp. cbn [Zdigits2]. rewrite Hcan, Z.sub_diag. done.
Qed.

(** [binary_round_aux] returns a float of the format: zero, an infinity, or
    a mantissa of at most 53 bits with the exponent of its magnitude, when
    it is given no fewer bits than the format holds. *)
Lemma round_aux_valid (s : bool) (m e : Z) (l : location) :
  0 <= m -> e <= fexp 53 1024 (Zdigits2 m + e) ->
  valid_binary 53 1024 (binary_round_aux 53 1024 s m e l) = true.
Proof.
  intros Hm He. unfold binary_round_aux.
  (* the first shift *)
  assert (H1 : let r1 := (shr_fexp 53 1024 m e l).1 in
               let e1 := (shr_fexp 53 1024 m e l).2 in
               0 <= shr_m r1 < 2 ^ 53 /\ -1074 <= e1 /\
               (2 ^ 52 <= shr_m r1 \/ e1 = -1074)).
  { cbn zeta. unfold shr_fexp.
    set (n := fexp 53 1024 (Zdigits2 m + e) - e).
    destruct (record_of_loc_spec m l) as [Hrm _].
    pose proof (shr_spec (shr_record_of_loc m l) e n) as H1.
    rewrite Hrm in H1. specialize (H1 Hm). cbn zeta in H1.
    destruct (shr (shr_record_of_loc m l) e n) as [r1 e1]. cbn [fst snd] in *.
    destruct H1 as (He1 & Hr1 & Hb1 & _).
    assert (Hn0 : 0 <= n) by (subst n; lia).
    rewrite Z.max_r in He1, Hb1 by lia.
    assert (0 < 2 ^ n) by (apply Z.pow_pos_nonneg; lia).
    assert (Hn : n = fexp 53 1024 (Zdigits2 m + e) - e) by done.
    clearbody n.
    destruct m as [|pm|pm]; [| |lia].
    - cbn [Zdigits2] in *. rewrite fexp_eq in *.
      split; [split; [lia|nia]|]. split; [lia|]. right. lia.
    - cbn [Zdigits2] in *. pose proof (digits_spec pm) as [Hd Hd'].
      set (d := Zpos (digits2_pos pm)) in *.
      assert (0 < d) by (subst d; lia).
      rewrite fexp_eq in *.
      assert (Hup : 2 ^ d <= 2 ^ 53 * 2 ^ n).
      { rewrite <- Z.pow_add_r by lia. apply Z.pow_le_mono_r; lia. }
      split; [split; [lia|nia]|]. split; [lia|].
      destruct (Z.eq_dec e1 (-1074)) as [|Hne]; [by right|left].
      assert (Hn' : n = d - 53) by lia.
      assert (Hlow : 2 ^ (d - 1) = 2 ^ 52 * 2 ^ n).
      { rewrite <- Z.pow_add_r by lia. f_equal. lia. }
      nia. }
  cbn zeta in H1.
  destruct (shr_fexp 53 1024 m e l) as [r1 e1]. cbn [fst snd] in H1.
  destruct H1 as (Hr1 & He1 & Hnorm).
  pose proof (round_record r1) as Hround. cbn zeta in Hround.
  set (m1 := round_nearest_even (shr_m r1) (loc_of_shr_record r1)) in *.
  assert (Hm1 : 0 <= m1 <= 2 ^ 53).
  { destruct (inexact r1); lia. }
  assert (Hnorm1 : 2 ^ 52 <= m1 \/ e1 = -1074) by lia.
  clearbody m1. clear Hround Hnorm Hr1.
  (* the second shift *)
  destruct m1 as [|p1|p1]; [| |lia].
  - unfold shr_fexp. cbn [Zdigits2]. rewrite fexp_eq.
    pose proof (shr_spec (shr_record_of_loc 0 loc_Exact) e1
                  (Z.max (0 + e1 - 53) (-1074) - e1) ltac:(done)) as H2.
    cbn zeta in H2.
    destruct (shr _ e1 _) as [r2 e2]. cbn [fst snd] in H2.
    destruct H2 as (_ & Hr2 & Hb2 & _).
    rewrite Z.max_l in Hb2 by lia. rewrite Z.pow_0_r in Hb2.
    change (shr_m (shr_record_of_loc 0 loc_Exact)) with 0 in Hb2.
    replace (shr_m r2) with 0 by lia. done.
  - destruct (Z.eq_dec (Zpos p1) (2 ^ 53)) as [Heq|Hne].
    + assert (p1 = 9007199254740992%positive) as -> by lia.
      unfold shr_fexp. cbn [Zdigits2].
      change (Zpos (digits2_pos 9007199254740992)) with 54.
      rewrite fexp_eq. replace (Z.max (54 + e1 - 53) (-1074) - e1) with 1 by lia.
      cbn [shr SpecFloat.iter_pos fst snd].
      change (shr_m (shr_1 (shr_record_of_loc 9007199254740992 loc_Exact)))
        with (Zpos 4503599627370496).
      cbv iota beta.
      destruct (e1 + 1 <=? 1024 - 53) eqn:Hle; [|done].
      cbn [valid_binary]. unfold bounded, canonical_mantissa.
      change (Zpos (digits2_pos 4503599627370496)) with 53.
      rewrite fexp_eq, Hle. rewrite Z.max_l by lia.
      replace (53 + (e1 + 1) - 53) with (e1 + 1) by lia. by rewrite Z.eqb_refl.
    + pose proof (digits_spec p1) as [Hd Hd'].
      set (d := Zpos (digits2_pos p1)) in *.
      assert (0 < d) by (subst d; lia).
      assert (Hd53 : d <= 53).
      { assert (d - 1 < 53); [|lia]. apply (Z.pow_lt_mono_r_iff 2); lia. }
      assert (Hcan : fexp 53 1024 (d + e1) = e1).
      { rewrite fexp_eq. destruct Hnorm1 as [Hn|Hn]; [|lia].
        assert (52 < d); [|lia]. apply (Z.pow_lt_mono_r_iff 2); lia. }
      destruct (shr_fexp_canonical p1 e1 Hcan) as [H2m H2e].
      destruct (shr_fexp 53 1024 (Zpos p1) e1 loc_Exact) as [r2 e2].
      cbn [fst snd] in *. rewrite H2m, H2e.
      destruct (e1 <=? 1024 - 53) eqn:Hle; [|done].
      cbn [valid_binary]. unfold bounded, canonical_mantissa.
      fold d. rewrite Hcan, Z.eqb_refl. done.
Qed.

(** The quotient has the bits the format asks for. *)
Lemma div_valid (x y : float64) : valid_binary 53 1024 (div x y) = true.
Proof.
  destruct x as [sx|sx| |sx mx ex], y as [sy|sy| |sy my ey]; try done.
  unfold div, prec, emax, SFdiv, SFdiv_core_binary. cbn [Zdigits2].
  set (d1 := Zpos (digits2_pos mx)). set (d2 := Zpos (digits2_pos my)).
  set (e' := Z.min (fexp 53 1024 (d1 + ex - (d2 + ey))) (ex - ey)).
  set (s := ex - ey - e').
  assert (Hs : 0 <= s) by (subst s e'; lia).
  set (m' := match s with Zpos _ => Z.shiftl (Zpos mx) s | Z0 => Zpos mx | Zneg _ => 0 end).
  assert (Hm' : m' = Zpos mx * 2 ^ s).
  { subst m'. destruct s as [|p|p]; [by rewrite Z.pow_0_r, Z.mul_1_r| |lia].
    by rewrite Z.shiftl_mul_pow2. }
  pose proof (Z_div_mod m' (Zpos my) ltac:(lia)) as Hdiv.
  destruct (Z.div_eucl m' (Zpos my)) as [q r]. destruct Hdiv as [Hqr Hr].
  assert (H2s : 0 < 2 ^ s) by (apply Z.pow_pos_nonneg; lia).
  assert (Hq : 0 <= q) by nia.
  apply round_aux_valid; [done|].
  assert (He' : e' <= fexp 53 1024 (d1 + ex - (d2 + ey))) by (subst e'; lia).
  rewrite fexp_eq in *.
  destruct (Z.le_gt_cases e' (-1074)) as [|Hbig]; [lia|].
  assert (Hsd : d2 - d1 + 53 <= s) by (subst s; lia).
  pose proof (digits_spec mx) as [Hd1 _]. pose proof (digits_spec my) as [_ Hd2].
  fold d1 in Hd1. fold d2 in Hd2.
  assert (0 < d1) by (subst d1; lia). assert (0 < d2) by (subst d2; lia).
  set (k := d1 - 1 + s - d2) in *.
  assert (Hk : 2 ^ (d1 - 1) * 2 ^ s = 2 ^ k * 2 ^ d2).
  { rewrite <- !Z.pow_add_r by lia. f_equal. lia. }
  assert (0 < 2 ^ k) by (apply Z.pow_pos_nonneg; lia).
  assert (Hqk : 2 ^ k <= q) by nia.
  destruct q as [|pq|pq]; [lia| |lia]. cbn [Zdigits2].
  pose proof (digits_spec pq) as [_ Hdq].
  assert (k < Zpos (digits2_pos pq)) by (apply (Z.pow_lt_mono_r_iff 2); lia).
  lia.
Qed.

(** Multiplying a float of the format by -1 changes its sign and nothing
    else. *)
Lemma mul_neg_one_opp (x : float64) :
  valid_binary 53 1024 x = true -> mul x neg_one = SFopp x.
Proof.
  destruct x as [[]|[]| |s m e]; try done. cbn [valid_binary].
  unfold bounded. intros [Hcan Hle]%andb_true_iff.
  destruct (canonical_bounds m e Hcan) as (He & Hd & Hm & Hfexp).
  unfold mul, prec, emax, neg_one, SFmul, binary_round_aux.
  change (Zpos (m * 4503599627370496)) with (Zpos m * 2 ^ 52).
  (* the first shift takes the 52 zeros back *)
  assert (H1 : shr_fexp 53 1024 (Zpos m * 2 ^ 52) (e + -52) loc_Exact =
               ({| shr_m := Zpos m; shr_r := false; shr_s := false |}, e)).
  { unfold shr_fexp.
    assert (Hdig : Zdigits2 (Zpos m * 2 ^ 52) = Zpos (digits2_pos m) + 52).
    { change (Zpos m * 2 ^ 52) with (Zpos (m * 4503599627370496)). cbn [Zdigits2].
      apply digits_unique. pose proof (digits_spec m) as [Hlo Hhi].
      assert (0 < Zpos (digits2_pos m)) by lia.
      replace (Zpos (digits2_pos m) + 52 - 1) with (Zpos (digits2_pos m) - 1 + 52) by lia.
      rewrite !Z.pow_add_r by lia.
      change (Zpos (m * 4503599627370496)) with (Zpos m * 2 ^ 52). lia. }
    rewrite Hdig.
    replace (Zpos (digits2_pos m) + 52 + (e + -52)) with (Zpos (digits2_pos m) + e) by lia.
    rewrite Hfexp. replace (e - (e + -52)) with 52 by lia.
    pose proof (shr_spec (shr_record_of_loc (Zpos m * 2 ^ 52) loc_Exact) (e + -52) 52
                  ltac:(cbn; lia)) as H.
    cbn zeta in H. destruct (shr _ _ 52) as [r1 e1]. cbn [fst snd] in H.
    destruct H as (He1 & Hr1 & Hb & Hin).
    change (shr_m (shr_record_of_loc (Zpos m * 2 ^ 52) loc_Exact)) with (Zpos m * 2 ^ 52) in *.
    change (Z.max 0 52) with 52 in *.
    assert (Hm1 : shr_m r1 = Zpos m) by lia.
    assert (Hex : inexact r1 = false).
    { destruct (inexact r1); [|done]. destruct Hin as [Hin _].
      destruct (Hin eq_refl) as [?|?]; [lia|done]. }
    destruct r1 as [m1 [] []]; try done. cbn in Hm1. subst m1. f_equal. lia. }
  rewrite H1. cbn [shr_m loc_of_shr_record round_nearest_even].
  destruct (shr_fexp_canonical m e Hfexp) as [H2m H2e].
  destruct (shr_fexp 53 1024 (Zpos m) e loc_Exact) as [r2 e2]. cbn [fst snd] in *.
  rewrite H2m, H2e, Hle. by destruct s.
Qed.

Lemma neg_div (r f : float64) : mul (div r f) neg_one = SFopp (div r f).
Proof. apply mul_neg_one_opp, div_valid. Qed.
End Format.

(** ** Failures and the empty run *)

Section RunErrors.
Variable refFreqs : gmap string float64.
Variable range_map : nat -> gmap string Z -> list (string * Z).
Variable sort_Slice : forall A : Type, (A -> A -> bool) -> list A -> list A.

Lemma first_failure (c : list result) :
  (exists r, r ∈ c /\ err r <> None) ->
  exists pre r e post,
    c = pre ++ r :: post /\ Forall succeeded pre /\ err r = Some e.
Proof.
  induction c as [|x c IH]; intros (r & Hin & Hr).
  - by apply elem_of_nil in Hin.
  - destruct (err x) as [e|] eqn:Hx.
    + by exists [], x, e, c.
    + destruct IH as (pre & r' & e & post & -> & Hpre & He).
      { apply elem_of_cons in Hin as [->|Hin]; [congruence|eauto]. }
      exists (x :: pre), r', e, post. split; [done|]. split; [|done].
      by constructor.
Qed.


(** When the loop leaves through the closed channel, no result had failed,
    every result was received, and [entryCount] and [minDate] are the count
    and the minimum over them. *)
Lemma receive_drained (t : Time) (c : list result) (st : locals) (k : nat) :
  receive range_map 0 (start t) c = (inr st, k) ->
  Forall succeeded c /\ k = length c /\
  entryCount st = counted (length c) /\
  minDate st = foldl Z.min t (date <$> c).
Proof.
  intros Hrec.
  destruct (decide (Forall succeeded c)) as [Hok|Hnot].
  - destruct (receive_succeeded range_map c 0 (start t) Hok) as (st' & Hrec' & Hn & Hd).
    rewrite Hrec in Hrec'. by simplify_eq.
  - apply not_Forall_Exists in Hnot; [|intros r; unfold succeeded; apply _].
    apply Exists_exists in Hnot as (r & Hin & Hr).
    destruct (first_failure c) as (pre & r' & e & post & -> & Hpre & He); [by exists r|].
    by rewrite (receive_failed range_map pre post r' e 0 _ Hpre He) in Hrec.
Qed.

(** [entryCount > 0] after the loop says that a result was received: a
    float64 that is incremented from 0 stays above 0. *)
Lemma entryCount_positive (t : Time) (c : list result) (st : locals) (k : nat) :
  receive range_map 0 (start t) c = (inr st, k) ->
  gt (entryCount st) zero = true <-> c <> [].
Proof.
  intros Hrec. destruct (receive_drained t c st k Hrec) as (_ & _ & -> & _).
  rewrite counted_positive. by destruct c.
Qed.

(** C3: a stream with a failed result makes [Run] return that result's
    error, the first in arrival order; the results after it are not
    received, and nothing is printed, however many results succeeded
    before. *)
Theorem Run_first_failure (t : Time) (c : list result) (errc : option error) :
  (exists r, r ∈ c /\ err r <> None) ->
  exists pre r e post,
    c = pre ++ r :: post /\ Forall succeeded pre /\ err r = Some e /\
    Run refFreqs range_map sort_Slice t c errc =
      {| ret := Return (Some e); stdout := []; taken := S (length pre) |}.
Proof.
  intros H. destruct (first_failure c H) as (pre & r & e & post & -> & Hpre & He).
  exists pre, r, e, post. repeat split; try done.
  unfold Run. by rewrite (receive_failed range_map pre post r e 0 _ Hpre He).
Qed.

(** C5: when every result succeeded and the walk reports an error, [Run]
    returns the walk's error and prints nothing. *)
Theorem Run_walk_error (t : Time) (c : list result) (e : error) :
  Forall succeeded c ->
  Run refFreqs range_map sort_Slice t c (Some e) =
    {| ret := Return (Some e); stdout := []; taken := length c |}.
Proof.
  intros Hok.
  destruct (receive_succeeded range_map c 0 (start t) Hok) as (st & Hrec & _).
  unfold Run. fold (start t). by rewrite Hrec.
Qed.

(** C8: when the loop ends without error and [entryCount] is zero, the
    body of [if entryCount > 0] is not run: nothing is printed and [Run]
    returns nil. *)
Theorem Run_no_entries (t : Time) (c : list result) (st : locals) (k : nat) :
  receive range_map 0 (start t) c = (inr st, k) ->
  entryCount st = zero ->
  Run refFreqs range_map sort_Slice t c None =
    {| ret := Return None; stdout := []; taken := k |}.
Proof.
  intros Hrec Hz. unfold Run. fold (start t). by rewrite Hrec, Hz.
Qed.
End RunErrors.

Lemma Run_first_failure_witness :
  exists pre r e post,
    [Examples.entry1; Examples.broken; Examples.entry2] = pre ++ r :: post /\
    Forall succeeded pre /\ err r = Some e /\
    Run Examples.someRefs range_fwd insertion_sort Examples.jan10
        [Examples.entry1; Examples.broken; Examples.entry2] None =
      {| ret := Return (Some e); stdout := []; taken := S (length pre) |}.
Proof.
  apply (Run_first_failure Examples.someRefs range_fwd insertion_sort).
  exists Examples.broken. split; [|discriminate].
  right; left.
Defined.

Lemma Run_walk_error_witness :
  Run Examples.someRefs range_fwd insertion_sort Examples.jan10
      [Examples.entry1; Examples.entry2] (Some walk_canceled) =
    {| ret := Return (Some walk_canceled); stdout := []; taken := 2 |}.
Proof.
  apply (Run_walk_error Examples.someRefs range_fwd insertion_sort).
  repeat constructor.
Defined.

Lemma Run_no_entries_witness :
  Run Examples.someRefs range_fwd insertion_sort Examples.jan10 [] None =
    {| ret := Return None; stdout := []; taken := 0 |}.
Proof.
  apply (Run_no_entries Examples.someRefs range_fwd insertion_sort
           Examples.jan10 [] (start Examples.jan10) 0); reflexivity.
Defined.

(** ** Order of arrival and the earliest date *)

(** Two final states described by permuted streams are the same state. *)
Lemma drained_states_agree (c c' : list result) (st st' : locals) (n0 : float64)
    (d0 : Time) (m0 : gmap string Z) :
  c ≡ₚ c' ->
  entryCount st = Nat.iter (length c) (fun x => add x one) n0 ->
  entryCount st' = Nat.iter (length c') (fun x => add x one) n0 ->
  minDate st = foldl Z.min d0 (date <$> c) ->
  minDate st' = foldl Z.min d0 (date <$> c') ->
  (forall w, words st !! w = tally w (m0 !! w) c) ->
  (forall w, words st' !! w = tally w (m0 !! w) c') ->
  st = st'.
Proof.
  intros Hp Hn Hn' Hd Hd' Hw Hw'.
  destruct st as [n m d], st' as [n' m' d']; simpl in *. f_equal.
  - rewrite Hn, Hn'. by rewrite (Permutation_length Hp).
  - apply map_eq. intros w. rewrite Hw, Hw'. by apply tally_Permutation.
  - rewrite Hd, Hd'. apply foldl_Permutation; [intros; lia|by apply fmap_Permutation].
Qed.

Section Merge.
Variable range_map range_map' : nat -> gmap string Z -> list (string * Z).

(** C10: [minDate] starts at [t], the time the loop starts, and ends as the
    minimum of [t] and the dates of the entries: it is never after [t], it
    is [t] or the date of an entry, and the date of an entry after [t] is
    never the one reported. *)
Theorem minDate_minimum (t : Time) (c : list result) :
  Forall succeeded c ->
  exists st,
    receive range_map 0 (start t) c = (inr st, length c) /\
    minDate st = foldl Z.min t (date <$> c) /\
    (minDate st <= t)%Z /\
    (forall r, r ∈ c -> (minDate st <= date r)%Z) /\
    (minDate st = t \/ exists r, r ∈ c /\ minDate st = date r) /\
    (forall r, r ∈ c -> (t < date r)%Z -> minDate st <> date r).
Proof.
  intros Hok.
  destruct (receive_succeeded range_map c 0 (start t) Hok) as (st & Hrec & _ & Hd).
  simpl in Hd. exists st. split; [done|]. split; [done|].
  pose proof (foldl_min_le (date <$> c) t) as Hle. rewrite <- Hd in Hle.
  split; [done|]. split; [|split].
  - intros r Hr. rewrite Hd. apply foldl_min_lower. by apply list_elem_of_fmap_2.
  - destruct (foldl_min_attained (date <$> c) t) as [Heq|Hin].
    + left. by rewrite Hd.
    + right. apply list_elem_of_fmap in Hin as (r & Hr & Hin).
      exists r. split; [done|]. by rewrite Hd.
  - intros r _ Hlt. lia.
Qed.

(** C7: two arrival orders of the same successful results end the loop
    with the same [entryCount], the same merged word counts and the same
    [minDate], whatever the order in which each [range] walks the maps. *)
Theorem receive_order_independent (t : Time) (c c' : list result) :
  range_complete range_map -> range_complete range_map' ->
  Forall succeeded c ->
  c ≡ₚ c' ->
  exists st,
    receive range_map 0 (start t) c = (inr st, length c) /\
    receive range_map' 0 (start t) c' = (inr st, length c').
Proof.
  intros Hr Hr' Hok Hp.
  assert (Hok' : Forall succeeded c') by by rewrite <- Hp.
  destruct (receive_succeeded range_map c 0 (start t) Hok) as (st & Hrec & Hn & Hd).
  destruct (receive_succeeded range_map' c' 0 (start t) Hok') as (st' & Hrec' & Hn' & Hd').
  exists st. split; [done|]. rewrite Hrec'.
  do 2 f_equal. symmetry.
  apply (drained_states_agree c c' st st' zero t ∅ Hp Hn Hn' Hd Hd').
  - intros w. exact (receive_words range_map c _ _ _ _ Hr Hok Hrec w).
  - intros w. exact (receive_words range_map' c' _ _ _ _ Hr' Hok' Hrec' w).
Qed.
End Merge.

Lemma range_fwd_complete : range_complete range_fwd.
Proof. by intros k m. Qed.

Lemma range_bwd_complete : range_complete range_bwd.
Proof. intros k m. unfold range_bwd. by rewrite reverse_Permutation. Qed.

Lemma minDate_minimum_witness :
  exists st,
    receive range_fwd 0 (start Examples.jan10) [Examples.entry2; Examples.entry1] =
      (inr st, 2%nat) /\
    minDate st = Examples.jan01.
Proof.
  destruct (minDate_minimum range_fwd Examples.jan10 [Examples.entry2; Examples.entry1])
    as (st & Hrec & Hd & _).
  - repeat constructor.
  - exists st. split; [exact Hrec|]. rewrite Hd. reflexivity.
Defined.

Lemma receive_order_independent_witness :
  exists st,
    receive range_fwd 0 (start Examples.jan10) [Examples.entry1; Examples.entry2] =
      (inr st, 2%nat) /\
    receive range_bwd 0 (start Examples.jan10) [Examples.entry2; Examples.entry1] =
      (inr st, 2%nat).
Proof.
  apply (receive_order_independent range_fwd range_bwd Examples.jan10
           [Examples.entry1; Examples.entry2] [Examples.entry2; Examples.entry1]).
  - exact range_fwd_complete.
  - exact range_bwd_complete.
  - repeat constructor.
  - apply perm_swap.
Defined.

(** ** The report *)

Section Report.
Variable refFreqs : gmap string float64.
Variable range_map range_map' : nat -> gmap string Z -> list (string * Z).
Variable sort_Slice : forall A : Type, (A -> A -> bool) -> list A -> list A.


Lemma report_small_vocabulary (t : Time) (st : locals) (k : nat) :
  size refFreqs <> 0%nat ->
  (size (words st) < topUnusualWordCount)%nat ->
  (report refFreqs range_map sort_Slice t st k).1 = Panic.
Proof.
  intros Href Hsmall. unfold report.
  rewrite bool_decide_eq_false_2 by done.
  rewrite bool_decide_eq_false_2 by lia. done.
Qed.

(** C1, as the code has it: after at least one entry, all of them loaded
    without error, with a reference table that is not empty and fewer than
    100 distinct words in the merged map, the slice expression
    [wordStats[:topUnusualWordCount]] panics. *)
Theorem Run_small_vocabulary_panics (t : Time) (c : list result) (st : locals) (k : nat) :
  receive range_map 0 (start t) c = (inr st, k) ->
  c <> [] ->
  size refFreqs <> 0%nat ->
  (size (words st) < 100)%nat ->
  ret (Run refFreqs range_map sort_Slice t c None) = Panic.
Proof.
  intros Hrec Hpos Href Hsmall.
  apply (entryCount_positive range_map t c st k Hrec) in Hpos.
  unfold Run. fold (start t). rewrite Hrec, Hpos.
  pose proof (report_small_vocabulary t st k Href Hsmall) as Hp.
  by destruct (report refFreqs range_map sort_Slice t st k).
Qed.
End Report.

Lemma Run_small_vocabulary_panics_witness :
  ret (Run Examples.someRefs range_fwd insertion_sort Examples.jan10
         [Examples.entry1; Examples.entry2] None) = Panic.
Proof.
  eapply (Run_small_vocabulary_panics Examples.someRefs range_fwd insertion_sort
            Examples.jan10 [Examples.entry1; Examples.entry2]).
  - reflexivity.
  - discriminate.
  - vm_compute. discriminate.
  - vm_compute. lia.
Defined.

(** ** Running twice *)

Section Twice.
Variable refFreqs : gmap string float64.
Variable range_map range_map' : nat -> gmap string Z -> list (string * Z).
Variable sort_Slice : forall A : Type, (A -> A -> bool) -> list A -> list A.

End Twice.



(** ** The walk *)

Lemma NoDup_fmap_eq {A B} (f : A -> B) (l : list A) (x y : A) :
  NoDup (f <$> l) -> x ∈ l -> y ∈ l -> f x = f y -> x = y.
Proof.
  induction l as [|a l IH]; intros Hnd Hx Hy Hf; [by apply elem_of_nil in Hx|].
  rewrite fmap_cons in Hnd. apply NoDup_cons in Hnd as [Ha Hnd].
  apply elem_of_cons in Hx as [->|Hx]; apply elem_of_cons in Hy as [->|Hy].
  - done.
  - destruct Ha. rewrite Hf. by apply list_elem_of_fmap_2.
  - destruct Ha. rewrite <- Hf. by apply list_elem_of_fmap_2.
  - by apply IH.
Qed.

Section WalkProofs.
Variable IsEntry : string -> bool.
Variable Name : string -> string.

Lemma seen_insert (visited : gmap string bool) (n n' : string) :
  seen (<[n := true]> visited) n' = bool_decide (n = n') || seen visited n'.
Proof.
  unfold seen. destruct (decide (n = n')) as [->|Hne].
  - by rewrite lookup_insert_eq, bool_decide_eq_true_2.
  - by rewrite lookup_insert_ne, bool_decide_eq_false_2.
Qed.

(** What the walk sends, from any state of [visited] on. *)
Lemma walk_sent (vs : list visit) (visited : gmap string bool)
    (cancel : option nat) (sent : list string) (e : option error) :
  walk IsEntry Name visited cancel vs = (sent, e) ->
  NoDup (Name <$> sent) /\
  (forall p, p ∈ sent -> seen visited (Name p) = false) /\
  (e = None -> forall before v after,
     vs = before ++ v :: after -> first_of_name IsEntry Name before v ->
     seen visited (Name (path v)) = false -> path v ∈ sent).
Proof.
  revert visited cancel sent e.
  induction vs as [|v vs IH]; intros visited cancel sent e Hw; simpl in Hw.
  { simplify_eq. split; [constructor|]. split; [by intros p Hp%elem_of_nil|].
    intros _ [|??] ???; discriminate. }
  destruct (walk_err v) as [e'|] eqn:Herr.
  { simplify_eq. split; [constructor|]. split; [by intros p Hp%elem_of_nil|done]. }
  fold (seen visited (Name (path v))) in Hw.
  destruct (negb (regular v) || seen visited (Name (path v)) || negb (IsEntry (path v)))
    eqn:Hskip.
  - destruct (IH _ _ _ _ Hw) as (Hnd & Hnew & Hfirst).
    split; [done|]. split; [done|].
    intros He before v0 after Hvs [Hel H1] Hv0.
    destruct before as [|u before]; simpl in Hvs; simplify_eq.
    + unfold eligible in Hel. apply andb_true_iff in Hel as [Hreg Hent].
      rewrite Hreg, Hent, Hv0 in Hskip. discriminate.
    + apply (Hfirst eq_refl before v0 after eq_refl); [|done].
      split; [done|]. intros u' Hu'. apply H1. by right.
  - apply orb_false_iff in Hskip as [Hskip Hent].
    apply orb_false_iff in Hskip as [Hreg Hseen].
    apply negb_false_iff in Hreg, Hent.
    destruct (walk IsEntry Name (<[Name (path v):=true]> visited) (pred <$> cancel) vs)
      as [sent' e0] eqn:Hw'.
    destruct (IH _ _ _ _ Hw') as (Hnd & Hnew & Hfirst).
    assert (Hsent' : forall p, p ∈ sent' ->
              Name (path v) <> Name p /\ seen visited (Name p) = false).
    { intros p Hp. specialize (Hnew p Hp). rewrite seen_insert in Hnew.
      apply orb_false_iff in Hnew as [Hne Hs]. by apply bool_decide_eq_false in Hne. }
    destruct cancel as [[|n]|]; simpl in Hw; simplify_eq.
    + split; [constructor|]. split; [by intros p Hp%elem_of_nil|done].
    + split; [|split].
      * rewrite fmap_cons. apply NoDup_cons. split; [|done].
        intros (p & Hp & Hin)%list_elem_of_fmap. by destruct (Hsent' p Hin).
      * intros p [->|Hp]%elem_of_cons; [done|]. by destruct (Hsent' p Hp).
      * intros -> before v0 after Hvs [Hel H1] Hv0.
        destruct before as [|u before]; simpl in Hvs; simplify_eq; [by left|].
        right. apply (Hfirst eq_refl before v0 after eq_refl).
        -- split; [done|]. intros u' Hu'. apply H1. by right.
        -- rewrite seen_insert, Hv0, orb_false_r. apply bool_decide_eq_false.
           apply H1; [by left|]. unfold eligible. by rewrite Hreg, Hent.
    + split; [|split].
      * rewrite fmap_cons. apply NoDup_cons. split; [|done].
        intros (p & Hp & Hin)%list_elem_of_fmap. by destruct (Hsent' p Hin).
      * intros p [->|Hp]%elem_of_cons; [done|]. by destruct (Hsent' p Hp).
      * intros -> before v0 after Hvs [Hel H1] Hv0.
        destruct before as [|u before]; simpl in Hvs; simplify_eq; [by left|].
        right. apply (Hfirst eq_refl before v0 after eq_refl).
        -- split; [done|]. intros u' Hu'. apply H1. by right.
        -- rewrite seen_insert, Hv0, orb_false_r. apply bool_decide_eq_false.
           apply H1; [by left|]. unfold eligible. by rewrite Hreg, Hent.
Qed.

(** C6: the base names of the paths sent are pairwise distinct, whether the
    walk ends or is cut short; and in a walk that ends without error, of the
    files the callback goes on with under one base name the first in walk
    order is sent, and no later one under another path is. *)
Theorem walkFiles_base_name_once (cancel : option nat) (root : list visit)
    (sent : list string) (e : option error) :
  walkFiles IsEntry Name cancel root = (sent, e) ->
  NoDup (Name <$> sent) /\
  (e = None -> forall before v after,
     root = before ++ v :: after -> first_of_name IsEntry Name before v ->
     path v ∈ sent /\
     forall v', v' ∈ after -> Name (path v') = Name (path v) ->
                path v' <> path v -> path v' ∉ sent).
Proof.
  intros Hw. destruct (walk_sent root ∅ cancel sent e Hw) as (Hnd & _ & Hfirst).
  split; [done|]. intros He before v after Hroot Hv.
  assert (Hin : path v ∈ sent).
  { apply (Hfirst He before v after Hroot Hv). unfold seen. by rewrite lookup_empty. }
  split; [done|]. intros v' _ Hname Hpath Hin'.
  apply Hpath. by apply (NoDup_fmap_eq Name sent).
Qed.
End WalkProofs.

Lemma walkFiles_base_name_once_witness :
  NoDup (Examples.base <$> ["j/2023/mon.md"; "j/2023/tue.md"]%string) /\
  (@None error = None -> forall before v after,
     Examples.tree = before ++ v :: after ->
     first_of_name (fun _ => true) Examples.base before v ->
     path v ∈ ["j/2023/mon.md"; "j/2023/tue.md"]%string /\
     forall v', v' ∈ after -> Examples.base (path v') = Examples.base (path v) ->
                path v' <> path v ->
                path v' ∉ ["j/2023/mon.md"; "j/2023/tue.md"]%string).
Proof.
  apply (walkFiles_base_name_once (fun _ => true) Examples.base None Examples.tree).
  reflexivity.
Defined.

(** ** Less than a day since the earliest date *)

Section FirstDay.
Local Open Scope Z_scope.

Ltac by_computation :=
  first [ apply Z.leb_le; vm_compute; reflexivity
        | apply Z.ltb_lt; vm_compute; reflexivity ].

(** A duration under 24 hours is under 24 in hours, as a float: the hours
    are at most 23, the fraction at most [1 - 2^-42], and their rounded sum
    at most the float just below 24. *)
Lemma Hours_below_24 (d : Duration) :
  0 <= d < 24 * Hour ->
  le_float (Hours d) 6755399441055743 (-48).
Proof.
  intros Hd. unfold Hours, add, div.
  rewrite Z.quot_div_nonneg, Z.rem_mod_nonneg by (unfold Hour; lia).
  assert (Hh : 0 <= d / Hour <= 23).
  { split; [apply Z.div_pos; unfold Hour; lia|].
    apply Z.lt_succ_r. apply Z.div_lt_upper_bound; unfold Hour in *; lia. }
  assert (Hn : 0 <= d mod Hour <= Hour - 1).
  { pose proof (Z.mod_pos_bound d Hour ltac:(unfold Hour; lia)). lia. }
  apply (add_le _ _ 6473924464345088 (-48) 9007199254738944 (-53)).
  - apply of_int_le; [lia|reflexivity|lia|].
    transitivity (23 * p2 0); [|by_computation].
    apply Z.mul_le_mono_nonneg_r; [apply p2_nonneg|lia].
  - change (of_int Hour) with (S754_finite false 7372800000000000 (-11)).
    apply (div_le _ _ _ 7372799999997952 (-11)).
    + apply of_int_le; [lia|reflexivity|lia|].
      transitivity ((Hour - 1) * p2 0); [|by_computation].
      apply Z.mul_le_mono_nonneg_r; [apply p2_nonneg|lia].
    + lia.
    + reflexivity.
    + lia.
    + by_computation.
  - reflexivity.
  - lia.
  - by_computation.
Qed.

(** The divisor of line 77 is +0 for less than a day. *)
Lemma days_since_zero (d : Duration) :
  0 <= d < 24 * Hour ->
  Floor (div (Hours d) f24) = zero.
Proof.
  intros Hd. apply (Floor_below_one _ 9007199254740991 (-53)); [|by_computation].
  unfold div, f24.
  apply (div_le _ _ _ 6755399441055743 (-48)).
  - by apply Hours_below_24.
  - lia.
  - reflexivity.
  - lia.
  - by_computation.
Qed.

(** A count above zero divided by +0 is +Inf, and so is 100 times it. *)
Lemma div_by_zero (n : float64) :
  gt n zero = true -> div n zero = pinf /\ mul (div n zero) f100 = pinf.
Proof. by destruct n as [[]|[]| |[] m e]. Qed.

Variable refFreqs : gmap string float64.
Variable range_map : nat -> gmap string Z -> list (string * Z).
Variable sort_Slice : forall A : Type, (A -> A -> bool) -> list A -> list A.

(** C9: with [entryCount > 0] and the earliest date less than 24 hours
    before [t], [math.Floor(t.Sub(minDate).Hours()/24)] is +0, nothing guards
    the division, and the percentage computed and printed is +Inf. *)
Theorem percent_first_day (t : Time) (c : list result) (st : locals) (k : nat) :
  receive range_map 0 (start t) c = (inr st, k) ->
  gt (entryCount st) zero = true ->
  t - 24 * Hour < minDate st ->
  Floor (div (Hours (Sub t (minDate st))) f24) = zero /\
  percent t st = pinf /\
  is_finite (percent t st) = false /\
  exists rest,
    stdout (Run refFreqs range_map sort_Slice t c None) =
      DaysJournaled pinf (minDate st) :: rest.
Proof.
  intros Hrec Hpos Hday.
  assert (Hle : minDate st <= t).
  { destruct (receive_drained range_map t c st k Hrec) as (_ & _ & _ & ->).
    apply foldl_min_le. }
  assert (Hsub : Sub t (minDate st) = t - minDate st).
  { unfold Sub, minDuration, maxDuration, Hour in *. lia. }
  assert (Hz : Floor (div (Hours (Sub t (minDate st))) f24) = zero).
  { rewrite Hsub. apply days_since_zero. lia. }
  destruct (div_by_zero (entryCount st) Hpos) as [Hinf Hinf100].
  assert (Hp : percent t st = pinf) by (unfold percent; by rewrite Hz).
  split; [done|]. split; [done|]. split; [by rewrite Hp|].
  unfold Run. fold (start t). rewrite Hrec, Hpos. unfold report. rewrite Hp.
  change (mul pinf f100) with pinf.
  repeat case_match; simplify_eq; eauto.
Qed.
End FirstDay.

Lemma percent_first_day_witness :
  exists st,
    Floor (div (Hours (Sub Examples.jan10 (minDate st))) f24) = zero /\
    percent Examples.jan10 st = pinf /\
    is_finite (percent Examples.jan10 st) = false /\
    exists rest,
      stdout (Run Examples.someRefs range_fwd insertion_sort Examples.jan10
                [Examples.recent_entry] None) =
        DaysJournaled pinf (minDate st) :: rest.
Proof.
  eexists.
  eapply (percent_first_day Examples.someRefs range_fwd insertion_sort
            Examples.jan10 [Examples.recent_entry]).
  - reflexivity.
  - reflexivity.
  - reflexivity.
Defined.

(** ** The order of floats *)

Section FloatOrder.
Local Open Scope Z_scope.

Lemma SFltb_key (x y : float64) :
  is_nan x = false -> is_nan y = false ->
  (SFltb x y = true <-> lex_lt (key x) (key y)).
Proof.
  intros Hx Hy. unfold SFltb, lex_lt.
  destruct x as [[]|[]| |[] mx ex], y as [[]|[]| |[] my ey];
    try discriminate; cbn [SFcompare key fst snd];
    try (split; [intros; try discriminate; lia | lia]).
  - change (Pos.compare_cont Eq mx my) with (Z.compare (Zpos mx) (Zpos my)).
    destruct (Z.compare_spec ex ey); [destruct (Z.compare_spec (Zpos mx) (Zpos my))| |];
      cbn [CompOpp]; split; intros; try discriminate; try lia.
  - change (Pos.compare_cont Eq mx my) with (Z.compare (Zpos mx) (Zpos my)).
    destruct (Z.compare_spec ex ey); [destruct (Z.compare_spec (Zpos mx) (Zpos my))| |];
      cbn [CompOpp]; split; intros; try discriminate; try lia.
Qed.

Lemma SFltb_key_false (x y : float64) :
  is_nan x = false -> is_nan y = false ->
  (SFltb x y = false <-> ~ lex_lt (key x) (key y)).
Proof.
  intros Hx Hy. rewrite <- (SFltb_key x y Hx Hy). by destruct (SFltb x y).
Qed.






End FloatOrder.

(** ** Insertion sort meets the contract of [sort.Slice] *)

Lemma move_left_Permutation {A} (less : A -> A -> bool) (x : A) (p : list A) :
  move_left less x p ≡ₚ x :: p.
Proof.
  induction p as [|y p IH]; simpl; [done|].
  destruct (less x y); [|done]. rewrite IH. apply perm_swap.
Qed.

Lemma insertion_prefix_Permutation {A} (less : A -> A -> bool) (l p : list A) :
  foldl (fun prefix x => move_left less x prefix) p l ≡ₚ l ++ p.
Proof.
  revert p. induction l as [|x l IH]; intros p; simpl; [done|].
  rewrite IH, move_left_Permutation. by rewrite Permutation_middle.
Qed.

Lemma move_left_sorted {A} (less : A -> A -> bool) (L : list A) (x : A) (p : list A) :
  strict_weak_on less L -> x ∈ L -> p ⊆ L ->
  StronglySorted (fun a b => less a b = false) p ->
  StronglySorted (fun a b => less a b = false) (move_left less x p).
Proof.
  intros (Hirr & Htr & Hneg) Hx Hp Hs.
  induction p as [|y p IH]; simpl; [repeat constructor|].
  apply StronglySorted_cons in Hs as [Hy Hs]. rewrite Forall_forall in Hy.
  assert (HyL : y ∈ L) by (apply Hp; left).
  assert (HpL : p ⊆ L) by (intros z Hz; apply Hp; by right).
  destruct (less x y) eqn:Hxy.
  - apply StronglySorted_cons. split; [|by apply IH].
    apply Forall_forall. intros z Hz. rewrite move_left_Permutation in Hz.
    apply elem_of_cons in Hz as [->|Hz]; [|by apply Hy].
    destruct (less y x) eqn:Hyx; [|done].
    pose proof (Hirr x Hx) as Hxx.
    by rewrite (Htr x y x Hx HyL Hx Hxy Hyx) in Hxx.
  - apply StronglySorted_cons. split; [|by apply StronglySorted_cons; rewrite Forall_forall].
    apply Forall_forall. intros z [->|Hz]%elem_of_cons; [done|].
    apply (Hneg x y z); auto.
Qed.

Lemma StronglySorted_reverse {A} (R : A -> A -> Prop) (p : list A) :
  StronglySorted (flip R) p -> StronglySorted R (reverse p).
Proof.
  induction p as [|a p IH]; intros Hs; [constructor|].
  apply StronglySorted_cons in Hs as [Ha Hs]. rewrite Forall_forall in Ha.
  rewrite reverse_cons.
  apply StronglySorted_app. split; [|split; [by apply IH|repeat constructor]].
  intros x1 x2 Hx1 Hx2. rewrite elem_of_reverse in Hx1.
  apply list_elem_of_singleton in Hx2. subst. exact (Ha x1 Hx1).
Qed.

Lemma insertion_sort_sorts : sorts insertion_sort.
Proof.
  intros A less l. unfold insertion_sort. split.
  - rewrite reverse_Permutation, insertion_prefix_Permutation. by rewrite app_nil_r.
  - intros Hsw. apply StronglySorted_reverse. unfold flip.
    assert (H : forall l' p, l' ⊆ l -> p ⊆ l ->
              StronglySorted (fun a b => less a b = false) p ->
              StronglySorted (fun a b => less a b = false)
                (foldl (fun prefix x => move_left less x prefix) p l')).
    { induction l' as [|x l' IH]; intros p Hl' Hp Hs; simpl; [done|].
      apply IH.
      - intros z Hz. apply Hl'. by right.
      - intros z Hz. rewrite move_left_Permutation in Hz.
        apply elem_of_cons in Hz as [->|Hz]; [apply Hl'; left|by apply Hp].
      - apply (move_left_sorted less l); auto. apply Hl'. left. }
    apply H; [done|by intros z Hz%elem_of_nil|constructor].
Qed.

(** ** The ranking *)

Section Ranking.
Variable refFreqs : gmap string float64.
Variable sort_Slice : forall A : Type, (A -> A -> bool) -> list A -> list A.


End Ranking.


(** ** The report, from the first line to the last *)

Section ReportShape.
Variable refFreqs : gmap string float64.
Variable range_map : nat -> gmap string Z -> list (string * Z).
Variable sort_Slice : forall A : Type, (A -> A -> bool) -> list A -> list A.

Lemma tail_rows_spec (l : list wordStat) (n : nat) (i : nat) :
  (i + n <= length l)%nat ->
  tail_rows l (Z.of_nat (S i)) n = Some (map row (take n (drop i (reverse l)))).
Proof.
  revert i. induction n as [|n IH]; intros i Hlen; [done|].
  cbn [tail_rows]. unfold index.
  destruct (Z.ltb_spec (Z.of_nat (length l) - Z.of_nat (S i)) 0) as [|_]; [lia|].
  replace (Z.to_nat (Z.of_nat (length l) - Z.of_nat (S i))) with (length l - S i)%nat by lia.
  assert (Hi : (i < length l)%nat) by lia.
  rewrite <- (reverse_lookup l i Hi).
  destruct (reverse l !! i) as [ws|] eqn:Hws.
  - replace (Z.of_nat (S i) + 1)%Z with (Z.of_nat (S (S i))) by lia.
    rewrite IH by lia. by rewrite (drop_S _ _ _ Hws).
  - apply lookup_ge_None in Hws. rewrite length_reverse in Hws. lia.
Qed.

Lemma range_length (k : nat) (m : gmap string Z) :
  range_complete range_map -> length (range_map k m) = size m.
Proof. intros H. by rewrite (H k m), length_map_to_list. Qed.

(** X1: with at least one entry, a reference table that is not empty and at
    least 100 distinct words, [Run] returns nil after printing the four
    scalar lines, the first 100 words of the sorted slice, and the last 100
    from the end of the slice backwards. *)
Theorem Run_large_vocabulary (t : Time) (c : list result) (st : locals) (k : nat) :
  sorts sort_Slice -> range_complete range_map ->
  receive range_map 0 (start t) c = (inr st, k) ->
  c <> [] ->
  size refFreqs <> 0%nat ->
  (100 <= size (words st))%nat ->
  let wordCount := sum_counts (range_map k (words st)) in
  let wordStats :=
    sort_Slice wordStat less
      (map (mkStat refFreqs wordCount) (range_map (S k) (words st))) in
  length wordStats = size (words st) /\
  Run refFreqs range_map sort_Slice t c None =
    {| ret := Return None;
       stdout :=
         [ DaysJournaled (mul (percent t st) f100) (minDate st);
           TotalWordCount wordCount;
           AverageWordCount (div (of_int wordCount) (entryCount st));
           Blank ]
         ++ TopFrequent 100 :: map row (take 100 wordStats)
         ++ Blank :: TopInfrequent 100 :: map row (take 100 (reverse wordStats));
       taken := k |}.
Proof.
  intros Hsort Hrange Hrec Hne Href Hbig wordCount wordStats.
  assert (Hlen : length wordStats = size (words st)).
  { subst wordStats. destruct (Hsort wordStat less
      (map (mkStat refFreqs wordCount) (range_map (S k) (words st)))) as [Hp _].
    by rewrite Hp, length_map, range_length. }
  split; [done|].
  apply (entryCount_positive range_map t c st k Hrec) in Hne.
  unfold Run. fold (start t). rewrite Hrec, Hne. unfold report.
  rewrite bool_decide_eq_false_2 by done.
  unfold topUnusualWordCount. rewrite bool_decide_eq_true_2 by done.
  fold wordCount. fold wordStats.
  pose proof (tail_rows_spec wordStats 100 0 ltac:(lia)) as Hrows.
  change (Z.of_nat 1) with 1%Z in Hrows. rewrite drop_0 in Hrows.
  by rewrite Hrows.
Qed.

(** X2: with at least one entry and an empty reference table, [Run] prints
    the four scalar lines and returns nil, whatever the number of words. *)
Theorem Run_no_reference_table (t : Time) (c : list result) (st : locals) (k : nat) :
  receive range_map 0 (start t) c = (inr st, k) ->
  c <> [] ->
  size refFreqs = 0%nat ->
  let wordCount := sum_counts (range_map k (words st)) in
  Run refFreqs range_map sort_Slice t c None =
    {| ret := Return None;
       stdout :=
         [ DaysJournaled (mul (percent t st) f100) (minDate st);
           TotalWordCount wordCount;
           AverageWordCount (div (of_int wordCount) (entryCount st));
           Blank ];
       taken := k |}.
Proof.
  intros Hrec Hne Href wordCount.
  apply (entryCount_positive range_map t c st k Hrec) in Hne.
  unfold Run. fold (start t). rewrite Hrec, Hne. unfold report.
  by rewrite bool_decide_eq_true_2.
Qed.
End ReportShape.

Section Totals.
Local Open Scope Z_scope.
Variable refFreqs : gmap string float64.
Variable range_map : nat -> gmap string Z -> list (string * Z).
Variable sort_Slice : forall A : Type, (A -> A -> bool) -> list A -> list A.

Lemma Zsum_cons (x : Z) (l : list Z) : Zsum (x :: l) = x + Zsum l.
Proof. done. Qed.

Lemma Zsum_Permutation (l l' : list Z) : l ≡ₚ l' -> Zsum l = Zsum l'.
Proof. induction 1; rewrite ?Zsum_cons; lia. Qed.

Lemma wrap64_add_l (a b : Z) : wrap64 (wrap64 a + b) = wrap64 (a + b).
Proof. unfold wrap64. by rewrite Z.add_mod_idemp_l by lia. Qed.

Lemma wrap64_add_r (a b : Z) : wrap64 (a + wrap64 b) = wrap64 (a + b).
Proof. unfold wrap64. by rewrite Z.add_mod_idemp_r by lia. Qed.

Lemma sum_counts_from (l : list (string * Z)) (a : Z) :
  foldl (fun acc wc => wrap64 (acc + wc.2)) (wrap64 a) l = wrap64 (a + Zsum l.*2).
Proof.
  revert a. induction l as [|[w n] l IH]; intros a; cbn [foldl snd].
  - change (Zsum _) with 0. by rewrite Z.add_0_r.
  - rewrite wrap64_add_l, IH, fmap_cons, Zsum_cons. cbn [snd]. by rewrite Z.add_assoc.
Qed.

(** The loop of lines 81-83 adds up the counts modulo [2^64]. *)
Lemma sum_counts_spec (l : list (string * Z)) : sum_counts l = wrap64 (Zsum l.*2).
Proof. exact (sum_counts_from l 0). Qed.

Lemma words_total_range (k : nat) (m : gmap string Z) :
  range_complete range_map -> Zsum (range_map k m).*2 = words_total m.
Proof. intros H. unfold words_total. apply Zsum_Permutation. by rewrite (H k m). Qed.

Lemma words_total_insert (m : gmap string Z) (w : string) (n : Z) :
  words_total (<[w := n]> m) = words_total m - default 0 (m !! w) + n.
Proof.
  unfold words_total. destruct (m !! w) as [o|] eqn:Hw; cbn [default from_option].
  - rewrite <- (insert_delete_eq m).
    rewrite (Zsum_Permutation _ _
      (fmap_Permutation snd _ _ (map_to_list_insert (delete w m) w n (lookup_delete_eq m w)))).
    rewrite <- (Zsum_Permutation _ _
      (fmap_Permutation snd _ _ (map_to_list_delete m w o Hw))).
    rewrite !fmap_cons, !Zsum_cons. cbn [snd]. unfold id. lia.
  - rewrite (Zsum_Permutation _ _
      (fmap_Permutation snd _ _ (map_to_list_insert m w n Hw))).
    rewrite fmap_cons, Zsum_cons. cbn [snd]. lia.
Qed.

(** [wordMap[word] += count], whatever the key was before, adds [count] to
    the sum of the map modulo [2^64]. *)
Lemma add_count_total (l : list (string * Z)) (m : gmap string Z) :
  wrap64 (words_total (foldl add_count m l)) = wrap64 (words_total m + Zsum l.*2).
Proof.
  revert m. induction l as [|[w n] l IH]; intros m; cbn [foldl].
  - change (Zsum _) with 0. by rewrite Z.add_0_r.
  - rewrite IH. unfold add_count at 1. cbn [fst snd].
    rewrite words_total_insert, fmap_cons, Zsum_cons. cbn [snd].
    set (o := default 0 (m !! w)). set (T := words_total m). set (S := Zsum l.*2).
    replace (T - o + wrap64 (o + n) + S) with (T - o + S + wrap64 (o + n)) by lia.
    rewrite wrap64_add_r. f_equal. lia.
Qed.

Lemma receive_total (c : list result) (k n : nat) (st st' : locals) :
  range_complete range_map ->
  receive range_map k st c = (inr st', n) ->
  wrap64 (words_total (words st')) =
    wrap64 (words_total (words st) + stream_total c).
Proof.
  intros Hrange. revert k st. induction c as [|r c IH]; intros k st Hrec.
  - cbn [receive] in Hrec. simplify_eq. change (stream_total []) with 0.
    by rewrite Z.add_0_r.
  - cbn [receive] in Hrec. destruct (err r); [done|].
    rewrite (IH _ _ Hrec). cbn [accumulate words].
    rewrite <- wrap64_add_l, add_count_total, words_total_range by done.
    rewrite wrap64_add_l. unfold stream_total. rewrite fmap_cons, Zsum_cons.
    by rewrite Z.add_assoc.
Qed.

(** X3: the total printed is the sum of the counts of all results modulo
    [2^64], in whatever order the results arrive and the maps are walked. *)
Theorem Run_total_word_count (t : Time) (c : list result) :
  range_complete range_map ->
  Forall succeeded c -> c <> [] ->
  stdout (Run refFreqs range_map sort_Slice t c None) !! 1%nat =
    Some (TotalWordCount (wrap64 (stream_total c))).
Proof.
  intros Hrange Hok Hne.
  destruct (receive_succeeded range_map c 0 (start t) Hok) as (st & Hrec & _).
  pose proof (receive_total c _ _ _ _ Hrange Hrec) as Htot.
  change (words_total (words (start t))) with 0 in Htot. rewrite Z.add_0_l in Htot.
  apply (entryCount_positive range_map t c st _ Hrec) in Hne.
  unfold Run. fold (start t). rewrite Hrec, Hne. unfold report.
  rewrite sum_counts_spec, words_total_range, Htot by done.
  repeat case_match; simplify_eq; done.
Qed.
End Totals.

Lemma Run_large_vocabulary_witness :
  ret (Run Examples.someRefs range_fwd insertion_sort Examples.jan10
         [Examples.long_entry] None) = Return None.
Proof.
  edestruct (Run_large_vocabulary Examples.someRefs range_fwd insertion_sort
               Examples.jan10 [Examples.long_entry]) as [_ Hrun].
  - exact insertion_sort_sorts.
  - exact range_fwd_complete.
  - reflexivity.
  - discriminate.
  - vm_compute. discriminate.
  - vm_compute. lia.
  - rewrite Hrun. reflexivity.
Defined.

Lemma Run_no_reference_table_witness :
  ret (Run ∅ range_fwd insertion_sort Examples.jan10
         [Examples.entry1; Examples.entry2] None) = Return None /\
  length (stdout (Run ∅ range_fwd insertion_sort Examples.jan10
                    [Examples.entry1; Examples.entry2] None)) = 4%nat.
Proof.
  erewrite (Run_no_reference_table ∅ range_fwd insertion_sort
              Examples.jan10 [Examples.entry1; Examples.entry2]).
  - split; reflexivity.
  - reflexivity.
  - discriminate.
  - reflexivity.
Defined.

Lemma Run_total_word_count_witness :
  stdout (Run Examples.someRefs range_fwd insertion_sort Examples.jan10
            [Examples.entry1; Examples.entry2] None) !! 1%nat =
    Some (TotalWordCount 5).
Proof.
  apply (Run_total_word_count Examples.someRefs range_fwd insertion_sort
           Examples.jan10 [Examples.entry1; Examples.entry2]).
  - exact range_fwd_complete.
  - repeat constructor.
  - discriminate.
Defined.

(** ** Scanning one entry *)

Section ScanProofs.
Local Open Scope Z_scope.
Variable Load : string -> option error.
Variable Words : string -> list string.
Variable Date : string -> Time.
Variable ToLower : string -> string.

(** The map after counting the words [ws] into [m]: the key [k] has gained
    the number of words that lower-case to it. *)
Lemma count_word_lookup (ws : list string) (m : gmap string Z) (k : string) :
  foldl (count_word ToLower) m ws !! k =
    match length (filter (fun w => ToLower w = k) ws) with
    | O => m !! k
    | S n => Some (wrap64 (default 0 (m !! k) + Z.of_nat (S n)))
    end.
Proof.
  revert m. induction ws as [|w ws IH]; intros m; [done|].
  cbn [foldl]. rewrite IH. clear IH.
  assert (Hm : count_word ToLower m w !! k =
               if decide (ToLower w = k)
               then Some (wrap64 (default 0 (m !! k) + 1)) else m !! k).
  { unfold count_word. destruct (decide (ToLower w = k)) as [Hk|Hk].
    - by rewrite Hk, lookup_insert_eq.
    - by rewrite lookup_insert_ne. }
  rewrite Hm. destruct (decide (ToLower w = k)) as [Hk|Hk].
  - rewrite filter_cons_True by done. cbn [length].
    destruct (length (filter _ ws)) as [|n]; [done|].
    cbn [default from_option id]. unfold id. rewrite wrap64_add_l. do 2 f_equal. lia.
  - by rewrite filter_cons_False by done.
Qed.

(** X4: in the map [entryScanner] builds for a path, a key holds the number
    of words of the entry that lower-case to it, modulo [2^64]; a key no
    word lower-cases to is absent; and the map is empty when the entry
    failed to load. *)
Theorem scan_counts (p k : string) :
  wordMap (scan Load Words Date ToLower p) !! k =
    match Load p, length (filter (fun w => ToLower w = k) (Words p)) with
    | None, S n => Some (wrap64 (Z.of_nat (S n)))
    | _, _ => None
    end.
Proof.
  unfold scan. cbn [wordMap]. destruct (Load p) as [e|].
  - by rewrite lookup_empty.
  - rewrite count_word_lookup, lookup_empty. by destruct (length _).
Qed.

Lemma Zsum_nonneg (l : list Z) : Forall (fun v => 0 <= v) l -> 0 <= Zsum l.
Proof. induction 1; rewrite ?Zsum_cons; [done|lia]. Qed.

Lemma words_total_ge (m : gmap string Z) (k : string) (o : Z) :
  map_Forall (fun _ v => 0 <= v) m -> m !! k = Some o -> 0 <= o <= words_total m.
Proof.
  intros Hm Hk. pose proof (Hm k o Hk) as Ho. split; [done|].
  unfold words_total.
  rewrite <- (Zsum_Permutation _ _
    (fmap_Permutation snd _ _ (map_to_list_delete m k o Hk))).
  rewrite fmap_cons, Zsum_cons. cbn [snd].
  assert (0 <= Zsum (map_to_list (delete k m)).*2); [|lia].
  apply Zsum_nonneg, Forall_fmap, Forall_forall. intros [k' v] Hin.
  apply elem_of_map_to_list in Hin. apply lookup_delete_Some in Hin as [_ Hin].
  exact (Hm k' v Hin).
Qed.

Lemma count_words_total (ws : list string) (m : gmap string Z) :
  map_Forall (fun _ v => 0 <= v) m ->
  words_total m + Z.of_nat (length ws) < 2 ^ 64 ->
  map_Forall (fun _ v => 0 <= v) (foldl (count_word ToLower) m ws) /\
  words_total (foldl (count_word ToLower) m ws) = words_total m + Z.of_nat (length ws).
Proof.
  revert m. induction ws as [|w ws IH]; intros m Hm Hlen; cbn [foldl length] in *.
  - split; [done|lia].
  - assert (Ho : 0 <= default 0 (m !! ToLower w) <= words_total m).
    { destruct (m !! ToLower w) as [o|] eqn:Hw; cbn [default from_option]; unfold id.
      - by apply (words_total_ge m (ToLower w)).
      - split; [done|]. apply Zsum_nonneg, Forall_fmap, Forall_forall.
        intros [k' v] Hin. apply elem_of_map_to_list in Hin. exact (Hm k' v Hin). }
    assert (Hwrap : wrap64 (default 0 (m !! ToLower w) + 1) = default 0 (m !! ToLower w) + 1).
    { unfold wrap64. apply Z.mod_small. lia. }
    destruct (IH (count_word ToLower m w)) as [Hm' Htot].
    + unfold count_word. rewrite Hwrap. apply map_Forall_insert_2; [lia|done].
    + unfold count_word. rewrite words_total_insert, Hwrap. lia.
    + split; [done|]. rewrite Htot. unfold count_word.
      rewrite words_total_insert, Hwrap. lia.
Qed.

(** X5: for an entry that loads, with fewer than [2^64] words, the counts
    of the map add up to the number of words of the entry: every word is
    counted once. *)
Theorem scan_total (p : string) :
  Load p = None -> Z.of_nat (length (Words p)) < 2 ^ 64 ->
  words_total (wordMap (scan Load Words Date ToLower p)) = Z.of_nat (length (Words p)).
Proof.
  intros Hload Hlen. unfold scan. cbn [wordMap]. rewrite Hload.
  destruct (count_words_total (Words p) ∅) as [_ ->].
  - apply map_Forall_empty.
  - change (words_total ∅) with 0. lia.
  - change (words_total ∅) with 0. lia.
Qed.
End ScanProofs.

(** ** The goroutines: what [Run] returns, progress, termination *)

Section PipelineProofs.
Variable refFreqs : gmap string float64.
Variable range_map : nat -> gmap string Z -> list (string * Z).
Variable sort_Slice : forall A : Type, (A -> A -> bool) -> list A -> list A.
Variable IsEntry : string -> bool.
Variable Name : string -> string.
Variable Load : string -> option error.
Variable Words : string -> list string.
Variable Date : string -> Time.
Variable ToLower : string -> string.
Variable t : Time.

Local Notation "'scanP'" := (scan Load Words Date ToLower).
Local Notation "'stepP'" :=
  (step refFreqs range_map sort_Slice IsEntry Name Load Words Date ToLower t).
Local Notation "'execP'" :=
  (exec refFreqs range_map sort_Slice IsEntry Name Load Words Date ToLower t).
Local Notation "'invP'" :=
  (inv refFreqs range_map sort_Slice IsEntry Name Load Words Date ToLower t).
Local Notation "'RunP'" := (Run refFreqs range_map sort_Slice t).

Lemma Run_after_loop (c : list result) (errc : option error) :
  RunP c errc =
    match receive range_map 0 (start t) c with
    | (inl e, k) => {| ret := Return (Some e); stdout := []; taken := k |}
    | (inr st, k) => after_loop refFreqs range_map sort_Slice t st k errc
    end.
Proof. done. Qed.

Lemma receive_snoc (c : list result) (r : result) (k0 k : nat) (st0 st : locals) :
  receive range_map k0 st0 c = (inr st, k) -> err r = None ->
  receive range_map k0 st0 (c ++ [r]) = (inr (accumulate range_map k st r), S k).
Proof.
  revert k0 st0. induction c as [|x c IH]; intros k0 st0 Hrec Hr; cbn [receive app] in *.
  - simplify_eq. by rewrite Hr.
  - destruct (err x); [done|]. by apply IH.
Qed.

Lemma held_insert (sc : list scanner) (i : nat) (x y : scanner) :
  sc !! i = Some x ->
  held (<[i := y]> sc) ++ option_list (holds x) ≡ₚ held sc ++ option_list (holds y).
Proof.
  intros Hi. pose proof (lookup_lt_Some _ _ _ Hi) as Hlt.
  rewrite insert_take_drop by done.
  rewrite <- (take_drop_middle sc i x Hi) at 3.
  unfold held. rewrite !omap_app. cbn [omap list_omap].
  set (A := omap holds (take i sc)). set (B := omap holds (drop (S i) sc)).
  clearbody A B.
  destruct (holds x) as [rx|], (holds y) as [ry|]; simpl; rewrite ?app_nil_r;
    try done; solve_Permutation.
Qed.

Lemma held_all_Returned (sc : list scanner) :
  forallb is_Returned sc = true -> held sc = [].
Proof.
  induction sc as [|[] sc IH]; cbn; done.
Qed.

Lemma inv_init (root : list visit) : invP root (init t root).
Proof.
  split; [done|]. cbn [init main_st done scanners walker_st errc_buf].
  split; [done|]. exists [], []. split; [done|]. split; [done|].
  split; [done|]. split; [|done].
  apply Forall_forall. intros x Hx%elem_of_replicate. by destruct Hx as [-> _].
Qed.

Lemma step_inv (root : list visit) (s s' : system) (ch : choice) :
  invP root s -> stepP ch s = Some s' -> invP root s'.
Proof.
  intros [Hlen Hmain] Hstep. destruct s as [w eb sc m d].
  unfold inv. cbn [scanners main_st done walker_st errc_buf] in *.
  set (sent := (walkFiles IsEntry Name None root).1) in *.
  set (e := (walkFiles IsEntry Name None root).2) in *.
  destruct m as [st k|x].
  - destruct Hmain as (-> & delivered & handed & Hrec & Hperm & Hw).
    change (receive range_map 0 (start t) delivered = (inr st, k)) in Hrec.
    destruct ch; unfold step in Hstep;
      cbn [scanners main_st done walker_st errc_buf] in Hstep.
    + (* WalkNext *)
      destruct w as [vis [|v todo]|vis todo p|]; try done.
      * simplify_eq. cbn [scanners main_st done walker_st errc_buf].
        destruct Hw as (_ & _ & Hs & He). cbn [walk fst snd] in Hs, He.
        rewrite app_nil_r in Hs.
        split; [done|]. split; [done|]. exists delivered, handed. by rewrite He.
      * destruct Hw as (Heb & Hnr & Hs & He). cbn [walk] in Hs, He.
        destruct (walk_err v) as [e'|].
        { simplify_eq. cbn [scanners main_st done walker_st errc_buf].
          cbn [fst snd] in Hs, He. rewrite app_nil_r in Hs.
          split; [done|]. split; [done|]. exists delivered, handed. by rewrite He. }
        destruct (negb (regular v) || default false (vis !! Name (path v))
                  || negb (IsEntry (path v))).
        { simplify_eq. cbn [scanners main_st done walker_st errc_buf].
          split; [done|]. split; [done|]. by exists delivered, handed. }
        simplify_eq. cbn [scanners main_st done walker_st errc_buf].
        cbn [fmap option_fmap option_map] in Hs, He.
        destruct (walk IsEntry Name (<[Name (path v):=true]> vis) None todo)
          as [sent' e'] eqn:Hwalk.
        cbn [fst snd] in Hs, He.
        split; [done|]. split; [done|]. by exists delivered, handed.
    + (* Hand *)
      destruct w as [vis todo|vis todo p|]; try done.
      destruct (sc !! i) as [[]|] eqn:Hi; try done. simplify_eq.
      cbn [scanners main_st done walker_st errc_buf].
      destruct Hw as (Heb & Hnr & Hs & He).
      split; [by rewrite length_insert|]. split; [done|].
      exists delivered, (handed ++ [p]). split; [done|]. split; [|split; [done|split]].
      * pose proof (held_insert sc i Waiting (Holding (scanP p)) Hi) as Hh.
        simpl in Hh. rewrite app_nil_r in Hh.
        rewrite Hh, fmap_app, Hperm. by rewrite app_assoc.
      * apply Forall_insert; done.
      * split; [|done]. by rewrite <- app_assoc.
    + (* WalkCancel *)
      destruct w; done.
    + (* Leave *)
      destruct w as [vis todo|vis todo p|]; try done.
      destruct (sc !! i) as [[]|] eqn:Hi; try done. simplify_eq.
      cbn [scanners main_st done walker_st errc_buf].
      split; [by rewrite length_insert|]. split; [done|].
      exists delivered, handed. split; [done|]. split; [|done].
      pose proof (held_insert sc i Waiting Returned Hi) as Hh.
      simpl in Hh. rewrite !app_nil_r in Hh. by rewrite Hh.
    + (* Deliver *)
      destruct (sc !! i) as [[|r|]|] eqn:Hi; try done.
      pose proof (held_insert sc i (Holding r) Waiting Hi) as Hh.
      simpl in Hh. rewrite app_nil_r in Hh.
      assert (Hsub : scanP <$> handed ⊆+ scanP <$> sent).
      { destruct w as [vis todo|vis todo p|].
        - destruct Hw as (_ & _ & -> & _). rewrite fmap_app.
          by apply submseteq_inserts_r.
        - destruct Hw as (_ & _ & -> & _). rewrite fmap_app.
          by apply submseteq_inserts_r.
        - by destruct Hw as (_ & ->). }
      destruct (receive_drained range_map t delivered st k Hrec) as (Hok & -> & _).
      destruct (err r) as [e'|] eqn:Hr; simplify_eq;
        cbn [scanners main_st done walker_st errc_buf].
      * split; [by rewrite length_insert|]. split; [done|].
        exists (delivered ++ [r]). split; [|split].
        -- rewrite <- Hsub, Hperm, <- Hh. apply submseteq_skips_l.
           by apply submseteq_inserts_l.
        -- unfold Run. fold (start t).
           by rewrite (receive_failed range_map delivered [] r e' 0 _ Hok Hr).
        -- intros Hall. apply Forall_app in Hall as [_ Hall].
           apply Forall_cons in Hall as [Hall _]. unfold succeeded in Hall. congruence.
      * split; [by rewrite length_insert|]. split; [done|].
        exists (delivered ++ [r]), handed. split; [by apply receive_snoc|].
        split.
        { rewrite Hperm, <- Hh, <- app_assoc. apply Permutation_app_head, Permutation_app_comm. }
        destruct w as [vis todo|vis todo p|]; [| |done].
        -- destruct Hw as (? & Hnr & ? & ?). split; [done|]. split; [|done].
           by apply Forall_insert.
        -- destruct Hw as (? & Hnr & ? & ?). split; [done|]. split; [|done].
           by apply Forall_insert.
    + (* Drop *)
      destruct (sc !! i) as [[]|]; done.
    + (* Close *)
      destruct eb as [e'|]; [|done].
      destruct (forallb is_Returned sc) eqn:Hall; [|done]. simplify_eq.
      cbn [scanners main_st done walker_st errc_buf].
      split; [done|]. split; [done|]. exists delivered.
      rewrite (held_all_Returned sc Hall), app_nil_r in Hperm.
      assert (Hw' : e' = e /\ sent = handed).
      { destruct w as [vis todo|vis todo p|].
        - by destruct Hw as (? & _).
        - by destruct Hw as (? & _).
        - destruct Hw as (? & ?). by simplify_eq. }
      destruct Hw' as [-> Hs]. rewrite Hs. split; [by rewrite Hperm|]. split; [|done].
      rewrite Run_after_loop. by rewrite Hrec.
  - destruct Hmain as (-> & Hc).
    destruct ch; unfold step in Hstep;
      cbn [scanners main_st done walker_st errc_buf] in Hstep;
      repeat case_match; simplify_eq;
      cbn [scanners main_st done walker_st errc_buf] in *; simplify_eq;
      (split; [by rewrite ?length_insert|split; [done|exact Hc]]).
Qed.


Lemma exec_inv (root : list visit) (sched : list choice) (s s' : system) :
  invP root s -> execP sched s = Some s' -> invP root s'.
Proof.
  revert s. induction sched as [|ch sched IH]; intros s Hs Hex; cbn [exec] in Hex.
  - by simplify_eq.
  - destruct (stepP ch s) as [s1|] eqn:Hstep; [|done].
    apply (IH s1); [|done]. by apply (step_inv root s s1 ch).
Qed.


(** X6: whatever the scheduler does, what [Run] returns and prints is [Run]
    of the model on a stream [c] of results of distinct files the walk
    sends, with the error of the walk; and when no result of [c] failed, [c]
    is the results of all the files the walk sends, each once. *)
Theorem pipeline_result (root : list visit) (sched : list choice) (s : system)
    (x : execution) :
  execP sched (init t root) = Some s -> main_st s = Finished x ->
  exists c,
    c ⊆+ scanP <$> (walkFiles IsEntry Name None root).1 /\
    x = RunP c (walkFiles IsEntry Name None root).2 /\
    (Forall succeeded c -> c ≡ₚ scanP <$> (walkFiles IsEntry Name None root).1).
Proof.
  intros Hex Hx. destruct (exec_inv root sched _ s (inv_init root) Hex) as [_ Hm].
  rewrite Hx in Hm. by destruct Hm as [_ Hc].
Qed.


(** X8: when a file the walk sends fails to load, [Run] returns the load
    error of such a file and prints nothing, under every schedule. *)
Theorem pipeline_failure (root : list visit) (sched : list choice)
    (s : system) (x : execution) (p : string) (e : error) :
  p ∈ (walkFiles IsEntry Name None root).1 -> Load p = Some e ->
  execP sched (init t root) = Some s -> main_st s = Finished x ->
  exists p' e' n,
    p' ∈ (walkFiles IsEntry Name None root).1 /\ Load p' = Some e' /\
    x = {| ret := Return (Some e'); stdout := []; taken := n |}.
Proof.
  intros Hp He Hex Hx. destruct (exec_inv root sched _ s (inv_init root) Hex) as [_ Hm].
  rewrite Hx in Hm. destruct Hm as (_ & c & Hsub & -> & Hall).
  destruct (decide (Forall succeeded c)) as [Hok|Hnot].
  - exfalso. pose proof (Hall Hok) as Hperm.
    assert (Hin : scanP p ∈ c) by (rewrite Hperm; by apply list_elem_of_fmap_2).
    rewrite Forall_forall in Hok. specialize (Hok _ Hin).
    unfold succeeded, scan in Hok. cbn in Hok. congruence.
  - apply not_Forall_Exists in Hnot; [|intros r; unfold succeeded; apply _].
    apply Exists_exists in Hnot as (r & Hin & Hr).
    destruct (first_failure c) as (pre & r' & e' & post & -> & Hpre & He'); [by exists r|].
    assert (Hin' : r' ∈ scanP <$> (walkFiles IsEntry Name None root).1).
    { apply (elem_of_submseteq (pre ++ r' :: post)); [|done].
      apply elem_of_app. right. left. }
    apply list_elem_of_fmap in Hin' as (p' & -> & Hp').
    exists p', e', (S (length pre)). split; [done|]. split; [done|].
    unfold Run. fold (start t).
    by rewrite (receive_failed range_map pre post _ e' 0 _ Hpre He').
Qed.

(** *** Progress *)

Lemma scanners_cases (sc : list scanner) :
  (exists i, sc !! i = Some Waiting) \/
  (exists i r, sc !! i = Some (Holding r)) \/
  forallb is_Returned sc = true.
Proof.
  induction sc as [|[|r|] sc IH].
  - by right; right.
  - left. by exists 0%nat.
  - right; left. by exists 0%nat, r.
  - destruct IH as [[i Hi]|[(i & r & Hi)|Hall]].
    + left. by exists (S i).
    + right; left. by exists (S i), r.
    + by right; right.
Qed.

Lemma not_all_Returned (sc : list scanner) :
  length sc = numScanners -> Forall (fun x => x <> Returned) sc ->
  forallb is_Returned sc = true -> False.
Proof.
  destruct sc as [|[] sc]; [done|..]; intros _ Hn Hall; try done.
  apply Forall_cons in Hn as [Hn _]. done.
Qed.

(** X9: the goroutines never deadlock: in every state they reach, one
    of them can move, unless all of them have returned. *)
Theorem pipeline_progress (root : list visit) (sched : list choice) (s : system) :
  execP sched (init t root) = Some s ->
  final s \/ exists ch s', stepP ch s = Some s'.
Proof.
  intros Hex. destruct (exec_inv root sched _ s (inv_init root) Hex) as [Hlen Hm].
  destruct s as [w eb sc m d]. unfold final, step.
  cbn [scanners main_st done walker_st errc_buf] in *.
  destruct m as [st k|x].
  - destruct Hm as (-> & delivered & handed & Hrec & Hperm & Hw). right.
    destruct w as [vis [|v todo]|vis todo p|].
    + exists WalkNext. eauto.
    + exists WalkNext. destruct (walk_err v); [eauto|]. destruct (_ || _); eauto.
    + destruct Hw as (_ & Hnr & _).
      destruct (scanners_cases sc) as [[i Hi]|[(i & r & Hi)|Hall]].
      * exists (Hand i). rewrite Hi. eauto.
      * exists (Deliver i). rewrite Hi. destruct (err r); eauto.
      * destruct (not_all_Returned sc Hlen Hnr Hall).
    + destruct Hw as (-> & _).
      destruct (scanners_cases sc) as [[i Hi]|[(i & r & Hi)|Hall]].
      * exists (Leave i). rewrite Hi. eauto.
      * exists (Deliver i). rewrite Hi. destruct (err r); eauto.
      * exists Close. rewrite Hall. eauto.
  - destruct Hm as (-> & _).
    destruct w as [vis [|v todo]|vis todo p|].
    + right. exists WalkNext. eauto.
    + right. exists WalkNext. destruct (walk_err v); [eauto|]. destruct (_ || _); eauto.
    + right. exists WalkCancel. eauto.
    + destruct (scanners_cases sc) as [[i Hi]|[(i & r & Hi)|Hall]].
      * right. exists (Leave i). rewrite Hi. eauto.
      * right. exists (Drop i). rewrite Hi. eauto.
      * left. eauto.
Qed.

(** *** Termination *)

Lemma weight_insert (sc : list scanner) (i : nat) (x y : scanner) :
  sc !! i = Some x ->
  (sum_list_with scanner_weight (<[i := y]> sc) + scanner_weight x =
   sum_list_with scanner_weight sc + scanner_weight y)%nat.
Proof.
  intros Hi. pose proof (lookup_lt_Some _ _ _ Hi) as Hlt.
  rewrite insert_take_drop by done.
  rewrite <- (take_drop_middle sc i x Hi) at 3.
  rewrite !sum_list_with_app. cbn [sum_list_with]. lia.
Qed.

Lemma step_weight (s s' : system) (ch : choice) :
  stepP ch s = Some s' -> (weight s' < weight s)%nat.
Proof.
  intros Hstep. destruct s as [w eb sc m d]. unfold weight.
  destruct ch; unfold step in Hstep;
    cbn [scanners main_st done walker_st errc_buf] in Hstep.
  - destruct w as [vis [|v todo]|vis todo p|]; try done.
    + simplify_eq. cbn. lia.
    + destruct (walk_err v); [simplify_eq; cbn; lia|].
      destruct (_ || _); simplify_eq; cbn; lia.
  - destruct w as [vis todo|vis todo p|]; try done.
    destruct (sc !! i) as [[]|] eqn:Hi; try done. simplify_eq.
    pose proof (weight_insert sc i _ (Holding (scanP p)) Hi).
    cbn [scanners main_st done walker_st errc_buf walker_weight scanner_weight] in *. lia.
  - destruct w; try done. destruct d; [|done]. simplify_eq. cbn. lia.
  - destruct w; try done.
    destruct (sc !! i) as [[]|] eqn:Hi; try done. simplify_eq.
    pose proof (weight_insert sc i _ Returned Hi).
    cbn [scanners main_st done walker_st errc_buf walker_weight scanner_weight] in *. lia.
  - destruct (sc !! i) as [[|r|]|] eqn:Hi; try done.
    destruct m as [st k|]; [|done].
    pose proof (weight_insert sc i _ Waiting Hi).
    destruct (err r); simplify_eq;
      cbn [scanners main_st done walker_st errc_buf walker_weight scanner_weight
           main_weight] in *; lia.
  - destruct (sc !! i) as [[|r|]|] eqn:Hi; try done.
    destruct d; [|done]. simplify_eq.
    pose proof (weight_insert sc i _ Returned Hi).
    cbn [scanners main_st done walker_st errc_buf walker_weight scanner_weight] in *. lia.
  - destruct m as [st k|]; [|done]. destruct eb; [|done].
    destruct (forallb _ _); [|done]. simplify_eq. cbn. lia.
Qed.

Lemma exec_weight (sched : list choice) (s s' : system) :
  execP sched s = Some s' -> (length sched + weight s' <= weight s)%nat.
Proof.
  revert s. induction sched as [|ch sched IH]; intros s Hex; cbn [exec length] in *.
  - simplify_eq. lia.
  - destruct (stepP ch s) as [s1|] eqn:Hstep; [|done].
    pose proof (step_weight _ _ _ Hstep). pose proof (IH _ Hex). lia.
Qed.

(** X10: on a tree of [n] files the goroutines make at most [4 n + 34]
    steps, whatever the scheduler does. *)
Theorem pipeline_terminates (root : list visit) (sched : list choice) (s : system) :
  execP sched (init t root) = Some s ->
  (length sched <= 4 * length root + 34)%nat.
Proof.
  intros Hex. pose proof (exec_weight _ _ _ Hex) as H.
  assert (weight (init t root) = 4 * length root + 34)%nat; [|lia].
  unfold weight, init. cbn [scanners main_st walker_st walker_weight main_weight].
  replace (sum_list_with scanner_weight (replicate numScanners Waiting)) with 32%nat
    by (by vm_compute).
  lia.
Qed.
End PipelineProofs.

Lemma scan_total_witness :
  words_total (wordMap (scan Examples.loads Examples.journal_words
                          Examples.journal_date Examples.lower "j/2023/mon.md")) = 3%Z.
Proof.
  apply (scan_total Examples.loads Examples.journal_words Examples.journal_date
           Examples.lower "j/2023/mon.md").
  - reflexivity.
  - reflexivity.
Defined.

Lemma pipeline_result_witness :
  exists s x,
    exec Examples.someRefs range_fwd insertion_sort (fun _ => true)
           Examples.base Examples.loads Examples.journal_words Examples.journal_date
           Examples.lower Examples.jan10
      Examples.schedule (init Examples.jan10 Examples.tree) = Some s /\
    main_st s = Finished x /\
    exists c,
      c ⊆+ scan Examples.loads Examples.journal_words Examples.journal_date
             Examples.lower
           <$> (walkFiles (fun _ => true) Examples.base None Examples.tree).1 /\
      x = Run Examples.someRefs range_fwd insertion_sort Examples.jan10 c
            (walkFiles (fun _ => true) Examples.base None Examples.tree).2 /\
      (Forall succeeded c ->
       c ≡ₚ scan Examples.loads Examples.journal_words Examples.journal_date
              Examples.lower
            <$> (walkFiles (fun _ => true) Examples.base None Examples.tree).1).
Proof.
  eexists. eexists. split; [vm_compute; reflexivity|]. split; [reflexivity|].
  eapply (pipeline_result Examples.someRefs range_fwd insertion_sort (fun _ => true)
           Examples.base Examples.loads Examples.journal_words Examples.journal_date
           Examples.lower Examples.jan10
           Examples.tree Examples.schedule).
  - vm_compute. reflexivity.
  - reflexivity.
Defined.


Lemma pipeline_failure_witness :
  exists s x,
    exec Examples.someRefs range_fwd insertion_sort (fun _ => true)
           Examples.base Examples.unreadable Examples.journal_words Examples.journal_date
           Examples.lower Examples.jan10
      Examples.schedule_start (init Examples.jan10 Examples.tree) = Some s /\
    main_st s = Finished x /\
    exists p' e' n,
      p' ∈ (walkFiles (fun _ => true) Examples.base None Examples.tree).1 /\
      Examples.unreadable p' = Some e' /\
      x = {| ret := Return (Some e'); stdout := []; taken := n |}.
Proof.
  eexists. eexists. split; [vm_compute; reflexivity|]. split; [reflexivity|].
  eapply (pipeline_failure Examples.someRefs range_fwd insertion_sort (fun _ => true)
           Examples.base Examples.unreadable Examples.journal_words Examples.journal_date
           Examples.lower Examples.jan10
           Examples.tree Examples.schedule_start _ _
           "j/2023/tue.md" "unreadable entry").
  - apply (list_elem_of_lookup_2 _ 1%nat). reflexivity.
  - reflexivity.
  - vm_compute. reflexivity.
  - reflexivity.
Defined.

Lemma pipeline_progress_witness :
  exists s,
    exec Examples.someRefs range_fwd insertion_sort (fun _ => true) Examples.base
      Examples.loads Examples.journal_words Examples.journal_date Examples.lower
      Examples.jan10 Examples.schedule (init Examples.jan10 Examples.tree) = Some s /\
    (final s \/
     exists ch s',
       step Examples.someRefs range_fwd insertion_sort (fun _ => true) Examples.base
         Examples.loads Examples.journal_words Examples.journal_date Examples.lower
         Examples.jan10 ch s = Some s').
Proof.
  eexists. split.
  - vm_compute. reflexivity.
  - eapply (pipeline_progress Examples.someRefs range_fwd insertion_sort
              (fun _ => true) Examples.base Examples.loads Examples.journal_words
              Examples.journal_date Examples.lower Examples.jan10 Examples.tree
              Examples.schedule).
    vm_compute. reflexivity.
Defined.

Lemma pipeline_terminates_witness :
  (length Examples.schedule <= 4 * length Examples.tree + 34)%nat.
Proof.
  eapply (pipeline_terminates Examples.someRefs range_fwd insertion_sort
            (fun _ => true) Examples.base Examples.loads Examples.journal_words
            Examples.journal_date Examples.lower Examples.jan10 Examples.tree
            Examples.schedule).
  vm_compute. reflexivity.
Defined.

(** ** The walk: errors, cancellation, what is sent *)

Section WalkMore.
Variable IsEntry : string -> bool.
Variable Name : string -> string.

Lemma walk_error (before after : list visit) (v : visit) (e : error)
    (visited : gmap string bool) :
  Forall (fun u => walk_err u = None) before -> walk_err v = Some e ->
  walk IsEntry Name visited None (before ++ v :: after) =
    ((walk IsEntry Name visited None before).1, Some e).
Proof.
  intros Hok Hv. revert visited.
  induction Hok as [|u before Hu Hok IH]; intros visited; cbn [walk app].
  - by rewrite Hv.
  - rewrite Hu. destruct (_ || _); [apply IH|].
    cbn [fmap option_fmap option_map]. rewrite IH.
    by destruct (walk IsEntry Name _ None before).
Qed.

(** X11: when [filepath.Walk] passes an error to the function, the walk ends
    with that error: the paths sent are those of the files before it, and
    no file after it is looked at. *)
Theorem walkFiles_error (before after : list visit) (v : visit) (e : error) :
  Forall (fun u => walk_err u = None) before -> walk_err v = Some e ->
  walkFiles IsEntry Name None (before ++ v :: after) =
    ((walkFiles IsEntry Name None before).1, Some e).
Proof. intros Hok Hv. by apply walk_error. Qed.

Lemma walk_cancel (vs : list visit) (visited : gmap string bool) (n : nat) :
  walk IsEntry Name visited (Some n) vs =
    let '(sent, e) := walk IsEntry Name visited None vs in
    if (n <? length sent)%nat then (take n sent, Some walk_canceled) else (sent, e).
Proof.
  revert visited n. induction vs as [|v vs IH]; intros visited n; cbn [walk].
  - done.
  - destruct (walk_err v); [done|]. destruct (_ || _); [apply IH|].
    cbn [fmap option_fmap option_map].
    destruct n as [|n].
    + by destruct (walk IsEntry Name _ None vs).
    + cbn [pred]. rewrite IH. destruct (walk IsEntry Name _ None vs) as [sent e].
      cbn [length]. change (S n <? S (length sent))%nat with (n <? length sent)%nat.
      by destruct (n <? length sent)%nat.
Qed.

(** X12: when [done] is closed as the walker tries to send its [n]-th path
    (counting from 0), the walk has sent the first [n] of the paths it would
    have sent and returns "walk canceled"; with fewer than [n + 1] paths to
    send, the closed channel changes nothing. *)
Theorem walkFiles_cancel (root : list visit) (n : nat) :
  walkFiles IsEntry Name (Some n) root =
    let '(sent, e) := walkFiles IsEntry Name None root in
    if (n <? length sent)%nat then (take n sent, Some walk_canceled) else (sent, e).
Proof. apply walk_cancel. Qed.

Lemma walk_sublist (vs : list visit) (visited : gmap string bool)
    (cancel : option nat) :
  sublist (walk IsEntry Name visited cancel vs).1
    (path <$> filter (fun v => eligible IsEntry v = true /\ walk_err v = None) vs).
Proof.
  revert visited cancel. induction vs as [|v vs IH]; intros visited cancel; cbn [walk].
  - constructor.
  - destruct (walk_err v) as [e|] eqn:Herr; [apply sublist_nil_l|].
    destruct (negb (regular v) || default false (visited !! Name (path v))
              || negb (IsEntry (path v))) eqn:Hskip.
    + destruct (decide (eligible IsEntry v = true /\ walk_err v = None)).
      * rewrite filter_cons_True by done. rewrite fmap_cons. by apply sublist_cons.
      * by rewrite filter_cons_False.
    + apply orb_false_iff in Hskip as [Hskip Hent].
      apply orb_false_iff in Hskip as [Hreg _].
      apply negb_false_iff in Hreg, Hent.
      rewrite filter_cons_True by (unfold eligible; by rewrite Hreg, Hent).
      rewrite fmap_cons. destruct cancel as [[|n]|]; cbn [fmap option_fmap option_map].
      * apply sublist_nil_l.
      * specialize (IH (<[Name (path v):=true]> visited) (Some (pred (S n)))).
        destruct (walk IsEntry Name _ _ vs). by apply sublist_skip.
      * specialize (IH (<[Name (path v):=true]> visited) None).
        destruct (walk IsEntry Name _ _ vs). by apply sublist_skip.
Qed.

(** X13: the walker sends nothing but paths of regular files that
    [journalentry.IsEntry] accepts and that [Walk] could read, and sends
    them in walk order. *)
Theorem walkFiles_sound (cancel : option nat) (root : list visit) :
  sublist (walkFiles IsEntry Name cancel root).1
    (path <$> filter (fun v => eligible IsEntry v = true /\ walk_err v = None) root).
Proof. apply walk_sublist. Qed.
End WalkMore.

Lemma walkFiles_error_witness :
  walkFiles (fun _ => true) Examples.base None
    (Examples.locked_tree_before ++ Examples.locked_dir :: Examples.locked_tree_after) =
  (["j/mon.md"%string], Some "permission denied"%string).
Proof.
  apply (walkFiles_error (fun _ => true) Examples.base Examples.locked_tree_before
           Examples.locked_tree_after Examples.locked_dir "permission denied").
  - repeat constructor.
  - reflexivity.
Defined.

(** ** Counting in float64 *)

Section Exact.
Local Open Scope Z_scope.

(** Rounding a value the format holds gives that value: [k] zeros below a
    canonical mantissa are shifted out and nothing is lost. *)
Lemma round_aux_exact (s : bool) (M : positive) (E k : Z) :
  canonical_mantissa 53 1024 M E = true -> E <= 971 -> 0 <= k ->
  binary_round_aux 53 1024 s (Zpos M * 2 ^ k) (E - k) loc_Exact = S754_finite s M E.
Proof.
  intros Hcan Hle Hk.
  destruct (canonical_bounds M E Hcan) as (He & Hd & Hm & Hfexp).
  assert (H2k : 0 < 2 ^ k) by (apply Z.pow_pos_nonneg; lia).
  unfold binary_round_aux.
  assert (H1 : shr_fexp 53 1024 (Zpos M * 2 ^ k) (E - k) loc_Exact =
               ({| shr_m := Zpos M; shr_r := false; shr_s := false |}, E)).
  { unfold shr_fexp.
    assert (Hdig : Zdigits2 (Zpos M * 2 ^ k) = Zpos (digits2_pos M) + k).
    { destruct (Zpos M * 2 ^ k) as [|p|p] eqn:Hp; [lia| |lia]. cbn [Zdigits2].
      apply digits_unique. pose proof (digits_spec M) as [Hlo Hhi].
      assert (0 < Zpos (digits2_pos M)) by lia.
      replace (Zpos (digits2_pos M) + k - 1) with (Zpos (digits2_pos M) - 1 + k) by lia.
      rewrite !Z.pow_add_r by lia. rewrite <- Hp. nia. }
    rewrite Hdig.
    replace (Zpos (digits2_pos M) + k + (E - k)) with (Zpos (digits2_pos M) + E) by lia.
    rewrite Hfexp. replace (E - (E - k)) with k by lia.
    pose proof (shr_spec (shr_record_of_loc (Zpos M * 2 ^ k) loc_Exact) (E - k) k) as H.
    destruct (record_of_loc_spec (Zpos M * 2 ^ k) loc_Exact) as [Hrm Hri].
    rewrite Hrm in H. specialize (H ltac:(lia)). cbn zeta in H.
    destruct (shr _ _ k) as [r1 e1]. cbn [fst snd] in H.
    destruct H as (He1 & Hr1 & Hb & Hin). rewrite Hri in Hin. cbn [is_exact negb] in Hin.
    rewrite Z.max_r in * by lia.
    assert (Hm1 : shr_m r1 = Zpos M) by nia.
    assert (Hex : inexact r1 = false).
    { destruct (inexact r1); [|done]. destruct Hin as [Hin _].
      destruct (Hin eq_refl) as [?|?]; [lia|done]. }
    destruct r1 as [m1 [] []]; try done. cbn in Hm1. subst m1. f_equal. lia. }
  rewrite H1. cbn [shr_m loc_of_shr_record round_nearest_even].
  destruct (shr_fexp_canonical M E Hfexp) as [H2m H2e].
  destruct (shr_fexp 53 1024 (Zpos M) E loc_Exact) as [r2 e2]. cbn [fst snd] in *.
  rewrite H2m, H2e. by replace (E <=? 1024 - 53) with true by (symmetry; apply Z.leb_le; lia).
Qed.

(** Two mantissas at two exponents that are worth the same have their
    leading bits at the same place. *)
Lemma same_value_digits (m M : positive) (e E : Z) :
  -3000 <= e -> -3000 <= E -> Zpos m * p2 e = Zpos M * p2 E ->
  Zpos (digits2_pos m) + e = Zpos (digits2_pos M) + E.
Proof.
  intros He HE Hv.
  pose proof (digits_spec m) as [Hlo Hhi]. pose proof (digits_spec M) as [Hlo' Hhi'].
  set (d := Zpos (digits2_pos m)) in *. set (D := Zpos (digits2_pos M)) in *.
  assert (0 < d) by (subst d; lia). assert (0 < D) by (subst D; lia).
  pose proof (p2_pos e He). pose proof (p2_pos E HE).
  assert (p2 (e + (d - 1)) < p2 (E + D)).
  { rewrite !p2_shift by lia. nia. }
  assert (p2 (E + (D - 1)) < p2 (e + d)).
  { rewrite !p2_shift by lia. nia. }
  apply p2_lt in H3; [|lia]. apply p2_lt in H4; [|lia]. lia.
Qed.

Lemma normalize_exact (m M : positive) (e E : Z) :
  canonical_mantissa 53 1024 M E = true -> E <= 971 -> -3000 <= e ->
  Zpos m * p2 e = Zpos M * p2 E ->
  binary_normalize 53 1024 (Zpos m) e false = S754_finite false M E.
Proof.
  intros Hcan Hle He Hv.
  destruct (canonical_bounds M E Hcan) as (HE & Hd & Hm & Hfexp).
  cbn [binary_normalize]. unfold binary_round.
  rewrite (same_value_digits m M e E) by (done || lia). rewrite Hfexp.
  pose proof (shl_align_spec m e E) as Ha.
  destruct (shl_align m e E) as [m' e']. destruct Ha as [He' Hm'].
  pose proof (p2_pos e He). pose proof (p2_pos E ltac:(lia)).
  destruct (Z.le_gt_cases e E) as [Hcase|Hcase].
  - rewrite Z.min_l in He' by lia. subst e'. rewrite Z.sub_diag, Z.pow_0_r, Z.mul_1_r in Hm'.
    rewrite Hm'.
    assert (Hm2 : Zpos m = Zpos M * 2 ^ (E - e)).
    { replace E with (e + (E - e)) in Hv at 1 by lia. rewrite p2_shift in Hv by lia. nia. }
    rewrite Hm2. replace e with (E - (E - e)) at 2 by lia.
    apply round_aux_exact; [done|done|lia].
  - rewrite Z.min_r in He' by lia. subst e'.
    assert (Hm2 : Zpos m' = Zpos M).
    { rewrite Hm'. replace e with (E + (e - E)) in Hv by lia.
      rewrite p2_shift in Hv by lia. nia. }
    rewrite Hm2. replace (Zpos M) with (Zpos M * 2 ^ 0) by (rewrite Z.pow_0_r; lia).
    replace E with (E - 0) at 1 by lia.
    apply round_aux_exact; [done|done|lia].
Qed.

(** An integer from 1 to [2^53] is a float: its bits, shifted up to 53. *)
Lemma int_canonical (n : Z) :
  1 <= n <= 2 ^ 53 ->
  exists M E, canonical_mantissa 53 1024 M E = true /\ E <= 971 /\
              Zpos M * p2 E = n * p2 0.
Proof.
  intros Hn. destruct (Z.eq_dec n (2 ^ 53)) as [->|Hne].
  { exists 4503599627370496%positive, 1. split; [done|]. split; [lia|].
    apply Z.eqb_eq. by vm_compute. }
  destruct n as [|pn|pn]; [lia| |lia].
  pose proof (digits_spec pn) as [Hlo Hhi].
  set (d := Zpos (digits2_pos pn)) in *.
  assert (0 < d) by (subst d; lia).
  assert (Hd : d <= 53).
  { assert (d - 1 < 53); [|lia]. apply (Z.pow_lt_mono_r_iff 2); lia. }
  assert (H2 : 0 < 2 ^ (53 - d)) by (apply Z.pow_pos_nonneg; lia).
  destruct (Zpos pn * 2 ^ (53 - d)) as [|M|M] eqn:HM; [lia| |lia].
  exists M, (d - 53).
  assert (Hpow : 2 ^ d * 2 ^ (53 - d) = 2 ^ 53).
  { rewrite <- Z.pow_add_r by lia. f_equal. lia. }
  assert (Hpow' : 2 ^ (d - 1) * 2 ^ (53 - d) = 2 ^ 52).
  { rewrite <- Z.pow_add_r by lia. f_equal. lia. }
  split; [|split; [lia|]].
  - unfold canonical_mantissa. apply Z.eqb_eq.
    rewrite (digits_unique M 53) by (rewrite <- HM; change (53 - 1) with 52; nia).
    rewrite fexp_eq. lia.
  - rewrite <- HM.
    assert (Hp0 : p2 0 = p2 (d - 53) * 2 ^ (53 - d)).
    { rewrite <- p2_shift by lia. f_equal. lia. }
    rewrite Hp0. lia.
Qed.

Lemma of_int_exact (n : Z) (M : positive) (E : Z) :
  1 <= n -> canonical_mantissa 53 1024 M E = true -> E <= 971 ->
  Zpos M * p2 E = n * p2 0 ->
  of_int n = S754_finite false M E.
Proof.
  intros Hn Hcan HE Hv. unfold of_int, prec, emax.
  destruct n as [|pn|pn]; [lia| |lia]. apply normalize_exact; [done|done|lia|lia].
Qed.

(** Up to [2^53], adding 1 to the float of an integer is exact. *)
Lemma add_one_exact (n : Z) :
  0 <= n < 2 ^ 53 -> add (of_int n) one = of_int (n + 1).
Proof.
  intros Hn. destruct (Z.eq_dec n 0) as [->|Hn0]; [by vm_compute|].
  destruct (int_canonical n ltac:(lia)) as (M & E & Hcan & HE & Hv).
  destruct (int_canonical (n + 1) ltac:(lia)) as (M' & E' & Hcan' & HE' & Hv').
  rewrite (of_int_exact n M E), (of_int_exact (n + 1) M' E') by (done || lia).
  destruct (canonical_bounds M E Hcan) as (HElo & _).
  unfold add, prec, emax, one, SFadd. cbn [cond_Zopp].
  pose proof (shl_align_spec M E (Z.min E (-52))) as Hax.
  pose proof (shl_align_spec 4503599627370496 (-52) (Z.min E (-52))) as Hay.
  destruct (shl_align M E (Z.min E (-52))) as [ax ex'].
  destruct (shl_align 4503599627370496 (-52) (Z.min E (-52))) as [ay ey'].
  destruct Hax as [Hex' Hax], Hay as [Hey' Hay]. cbn [fst].
  change (Zpos ax + Zpos ay) with (Zpos (ax + ay)).
  apply normalize_exact; [done|done|lia|].
  rewrite Pos2Z.inj_add, Hax, Hay, Hv'.
  assert (Hpx : p2 E = p2 (Z.min E (-52)) * 2 ^ (E - ex')).
  { rewrite <- p2_shift by lia. f_equal. lia. }
  assert (Hpy : p2 0 = p2 (Z.min E (-52)) * (2 ^ 52 * 2 ^ (-52 - ey'))).
  { rewrite <- Z.pow_add_r by lia. rewrite <- p2_shift by lia. f_equal. lia. }
  rewrite Hpx in Hv. change (Zpos 4503599627370496) with (2 ^ 52).
  set (P := p2 (Z.min E (-52))) in *. set (X := 2 ^ (E - ex')) in *.
  set (Y := 2 ^ 52 * 2 ^ (-52 - ey')) in *.
  replace ((n + 1) * p2 0) with (n * p2 0 + p2 0) by lia.
  rewrite <- Hv, Hpy. lia.
Qed.

Lemma counted_exact (n : nat) :
  Z.of_nat n <= 2 ^ 53 -> counted n = of_int (Z.of_nat n).
Proof.
  induction n as [|n IH]; intros Hn; [done|].
  change (counted (S n)) with (add (counted n) one).
  rewrite IH by lia. rewrite add_one_exact by lia. f_equal. lia.
Qed.

Lemma counted_saturates (n : nat) :
  2 ^ 53 <= Z.of_nat n -> counted n = of_int (2 ^ 53).
Proof.
  induction n as [|n IH]; intros Hn; [lia|].
  change (counted (S n)) with (add (counted n) one).
  destruct (Z.le_gt_cases (2 ^ 53) (Z.of_nat n)) as [Hge|Hlt].
  - rewrite IH by done. by vm_compute.
  - rewrite counted_exact by lia. rewrite add_one_exact by lia. f_equal. lia.
Qed.

Lemma counted_of_int (n : nat) :
  counted n = of_int (Z.min (Z.of_nat n) (2 ^ 53)).
Proof.
  destruct (Z.le_gt_cases (Z.of_nat n) (2 ^ 53)) as [Hle|Hgt].
  - rewrite Z.min_l by done. by apply counted_exact.
  - rewrite Z.min_r by lia. apply counted_saturates. lia.
Qed.

Variable range_map : nat -> gmap string Z -> list (string * Z).

(** X14: [entryCount], a float64 incremented once per result, is the number of
    results exactly, up to [2^53] of them; from there on it stays at [2^53]. *)
Theorem entryCount_exact (t : Time) (c : list result) (st : locals) (k : nat) :
  receive range_map 0 (start t) c = (inr st, k) ->
  entryCount st = of_int (Z.min (Z.of_nat (length c)) (2 ^ 53)).
Proof.
  intros Hrec. destruct (receive_drained range_map t c st k Hrec) as (_ & _ & -> & _).
  apply counted_of_int.
Qed.
End Exact.

Lemma entryCount_exact_witness :
  exists st,
    receive range_fwd 0 (start Examples.jan10) [Examples.entry1; Examples.entry2] =
      (inr st, 2%nat) /\
    entryCount st = of_int 2.
Proof.
  eexists. split; [reflexivity|].
  apply (entryCount_exact range_fwd Examples.jan10
           [Examples.entry1; Examples.entry2] _ 2%nat).
  reflexivity.
Defined.

(** ** A day or more since the earliest date *)

Section Below.
Local Open Scope Z_scope.

Lemma shr_fexp_ge_bound (m e : Z) (l : location) (mb : positive) (eb : Z) :
  0 < m -> -3000 <= e -> canonical_mantissa 53 1024 mb eb = true ->
  Zpos mb * p2 eb <= m * p2 e ->
  let r' := (shr_fexp 53 1024 m e l).1 in
  let e' := (shr_fexp 53 1024 m e l).2 in
  0 < shr_m r' /\ Zpos mb * p2 eb <= shr_m r' * p2 e' /\ e <= e' /\ -1074 <= e'.
Proof.
  intros Hm He Hcan Hle. cbn zeta. unfold shr_fexp.
  destruct (canonical_bounds mb eb Hcan) as (Heb0 & Hdb & Hmb & Hfexp).
  set (n := fexp 53 1024 (Zdigits2 m + e) - e).
  destruct (record_of_loc_spec m l) as [Hrm _].
  pose proof (shr_spec (shr_record_of_loc m l) e n) as H1.
  rewrite Hrm in H1. specialize (H1 ltac:(lia)). cbn zeta in H1.
  destruct (shr (shr_record_of_loc m l) e n) as [r1 e1]. cbn [fst snd] in *.
  destruct H1 as (He1 & Hr1 & Hb1 & _).
  destruct (Z.le_gt_cases n 0) as [Hn|Hn].
  - rewrite Z.max_l in * by lia. rewrite Z.pow_0_r in Hb1.
    replace e1 with e by lia. replace (shr_m r1) with m by lia.
    assert (-1074 <= e) by (subst n; rewrite fexp_eq in Hn; lia). lia.
  - rewrite Z.max_r in * by lia.
    assert (He1lo : -1074 <= e1) by (subst n; rewrite fexp_eq in He1; lia).
    destruct m as [|pm|pm]; try lia. cbn [Zdigits2] in n.
    pose proof (digits_spec pm) as [Hd Hd'].
    pose proof (digits_spec mb) as [Hdb1 Hdb2].
    set (d := Zpos (digits2_pos pm)) in *. set (db := Zpos (digits2_pos mb)) in *.
    assert (0 < d) by (subst d; lia). assert (0 < db) by (subst db; lia).
    pose proof (p2_pos e He) as HP. pose proof (p2_pos eb ltac:(lia)) as HPb.
    assert (Hmag : eb + (db - 1) < e + d).
    { apply (p2_lt (eb + (db - 1)) (e + d)); [lia|]. rewrite !p2_shift by lia. nia. }
    assert (He1eb : eb <= e1).
    { rewrite <- Hfexp. subst n. rewrite fexp_eq in *. lia. }
    assert (H2n : 0 < 2 ^ n) by (apply Z.pow_pos_nonneg; lia).
    pose proof (p2_pos e1 ltac:(lia)) as HP1.
    assert (Hpe1 : p2 e1 = p2 e * 2 ^ n) by (rewrite <- p2_shift by lia; f_equal; lia).
    destruct (Z.eq_dec e1 eb) as [Heq|Hne].
    + (* the bound is a multiple of the new unit *)
      assert (Zpos mb * 2 ^ n <= Zpos pm).
      { rewrite <- Heq, Hpe1 in Hle. nia. }
      assert (Zpos mb <= shr_m r1) by nia.
      split; [lia|]. split; [|lia]. rewrite <- Heq. nia.
    + (* the result has 53 bits at a higher exponent *)
      assert (Hnd : n = d - 53) by (subst n; rewrite fexp_eq in *; lia).
      assert (H2d : 2 ^ (d - 1) = 2 ^ 52 * 2 ^ n).
      { rewrite <- Z.pow_add_r by lia. f_equal. lia. }
      assert (Hm' : 2 ^ 52 <= shr_m r1) by nia.
      split; [lia|]. split; [|lia].
      transitivity (p2 (eb + 53)).
      * rewrite p2_shift by lia. nia.
      * transitivity (p2 (e1 + 52)); [apply p2_le; lia|].
        rewrite p2_shift by lia. nia.
Qed.

Lemma round_aux_ge_bound (m e : Z) (l : location) (mb : positive) (eb : Z) :
  0 < m -> -3000 <= e -> canonical_mantissa 53 1024 mb eb = true ->
  Zpos mb * p2 eb <= m * p2 e ->
  ge_bound (binary_round_aux 53 1024 false m e l) mb eb.
Proof.
  intros Hm He Hcan Hle. unfold binary_round_aux.
  pose proof (shr_fexp_ge_bound m e l mb eb Hm He Hcan Hle) as H1. cbn zeta in H1.
  destruct (shr_fexp 53 1024 m e l) as [r1 e1]. cbn [fst snd] in H1.
  destruct H1 as (Hr1 & Hv1 & He1 & _).
  pose proof (round_record r1) as Hround. cbn zeta in Hround.
  set (m1 := round_nearest_even (shr_m r1) (loc_of_shr_record r1)) in *.
  pose proof (p2_pos e1 ltac:(lia)) as HP1.
  pose proof (shr_fexp_ge_bound m1 e1 loc_Exact mb eb ltac:(lia) ltac:(lia) Hcan
                ltac:(nia)) as H2.
  cbn zeta in H2.
  destruct (shr_fexp 53 1024 m1 e1 loc_Exact) as [r2 e2]. cbn [fst snd] in H2.
  destruct H2 as (Hr2 & Hv2 & He2 & He2lo).
  destruct (shr_m r2) as [|m2|m2]; try lia.
  destruct (e2 <=? 1024 - 53); simpl; [|done]. split; [lia|done].
Qed.

(** Adding a float that is not negative to one that is at least a bound
    the format holds gives at least the bound. *)
Lemma add_ge_bound (x y : float64) (mb : positive) (eb : Z) (mby : positive) (eby : Z) :
  ge_bound x mb eb -> le_float y mby eby ->
  canonical_mantissa 53 1024 mb eb = true ->
  ge_bound (add x y) mb eb.
Proof.
  intros Hx Hy Hcan.
  destruct x as [[]|[]| |[] mx ex]; try done;
    destruct y as [[]|[]| |[] my ey]; try done.
  destruct Hx as [Hex Hx], Hy as [Hey _].
  unfold add, prec, emax, SFadd. cbn [cond_Zopp].
  pose proof (shl_align_spec mx ex (Z.min ex ey)) as Hax.
  pose proof (shl_align_spec my ey (Z.min ex ey)) as Hay.
  destruct (shl_align mx ex (Z.min ex ey)) as [ax ex'].
  destruct (shl_align my ey (Z.min ex ey)) as [ay ey'].
  destruct Hax as [Hex' Hax], Hay as [Hey' Hay]. cbn [fst].
  change (Zpos ax + Zpos ay) with (Zpos (ax + ay)). cbn [binary_normalize].
  unfold binary_round.
  pose proof (shl_align_value (ax + ay) (Z.min ex ey)
                (fexp 53 1024 (Zpos (digits2_pos (ax + ay)) + Z.min ex ey))
                ltac:(lia)) as H.
  rewrite fexp_eq in *. specialize (H ltac:(lia)).
  destruct (shl_align (ax + ay) _ _) as [mz ez]. destruct H as [Hez Hv].
  apply round_aux_ge_bound; [lia|lia|done|].
  rewrite Hv, Pos2Z.inj_add, Hax.
  assert (Hpx : p2 ex = p2 (Z.min ex ey) * 2 ^ (ex - ex')).
  { rewrite <- p2_shift by lia. f_equal. lia. }
  rewrite Hpx in Hx. pose proof (p2_nonneg (Z.min ex ey)). nia.
Qed.

(** A quotient of positive floats is at least [2^L] when the dividend is at
    least [2^L] times the divisor. *)
Lemma div_ge_ratio (mx my : positive) (ex ey L : Z) :
  -1074 <= ex -> -1074 <= ey <= 971 -> -1022 <= L <= 1000 ->
  Zpos my * p2 (ey + L) <= Zpos mx * p2 ex ->
  ge_float (div (S754_finite false mx ex) (S754_finite false my ey)) L.
Proof.
  intros Hex Hey HL Hle.
  unfold div, prec, emax, SFdiv, SFdiv_core_binary. cbn [xorb Zdigits2].
  set (d1 := Zpos (digits2_pos mx)). set (d2 := Zpos (digits2_pos my)).
  set (e' := Z.min (fexp 53 1024 (d1 + ex - (d2 + ey))) (ex - ey)).
  set (s := ex - ey - e').
  assert (He'lo : -3000 <= e' + ey) by (subst e'; rewrite fexp_eq; lia).
  assert (He'lo2 : -3000 <= e') by (subst e'; rewrite fexp_eq; lia).
  assert (Hs : 0 <= s) by (subst s e'; lia).
  set (m' := match s with Zpos _ => Z.shiftl (Zpos mx) s | Z0 => Zpos mx | Zneg _ => 0 end).
  assert (Hm' : m' = Zpos mx * 2 ^ s).
  { subst m'. destruct s as [|p|p]; [by rewrite Z.pow_0_r, Z.mul_1_r| |lia].
    by rewrite Z.shiftl_mul_pow2. }
  pose proof (Z_div_mod m' (Zpos my) ltac:(lia)) as Hdiv.
  destruct (Z.div_eucl m' (Zpos my)) as [q r]. destruct Hdiv as [Hqr Hr].
  assert (H2s : 0 < 2 ^ s) by (apply Z.pow_pos_nonneg; lia).
  pose proof (p2_pos e' He'lo2) as HPe'.
  pose proof (p2_pos (e' + ey) He'lo) as HPe'ey.
  destruct (Z.le_gt_cases e' L) as [Hcase|Hcase].
  - assert (Hmx : Zpos my * 2 ^ (L - e') <= m').
    { rewrite Hm'. replace (ey + L) with (e' + ey + (L - e')) in Hle by lia.
      replace ex with (e' + ey + s) in Hle by lia.
      rewrite (p2_shift (e' + ey) s), (p2_shift (e' + ey) (L - e')) in Hle by lia.
      apply (Z.mul_le_mono_pos_l _ _ (p2 (e' + ey))); lia. }
    assert (0 < 2 ^ (L - e')) by (apply Z.pow_pos_nonneg; lia).
    assert (Hq : 2 ^ (L - e') <= q) by nia.
    apply round_aux_ge; [lia|done|lia| |done].
    replace L with (e' + (L - e')) at 1 by lia.
    rewrite p2_shift by lia. nia.
  - pose proof (digits_spec mx) as [Hd1 _]. pose proof (digits_spec my) as [_ Hd2].
    fold d1 in Hd1. fold d2 in Hd2.
    assert (Hsd : d2 - d1 + 53 <= s).
    { subst s e'. rewrite fexp_eq in *. lia. }
    assert (d1 >= 1) by (subst d1; lia).
    assert (d2 >= 1) by (subst d2; lia).
    assert (Hpow : 2 ^ d2 <= 2 ^ (d1 - 1) * 2 ^ s).
    { rewrite <- Z.pow_add_r by lia. apply Z.pow_le_mono_r; lia. }
    assert (Hq : 1 <= q) by nia.
    apply round_aux_ge; [lia|done|lia| |done].
    transitivity (p2 e'); [apply p2_le; lia|nia].
Qed.

Ltac by_computation :=
  first [ apply Z.leb_le; vm_compute; reflexivity
        | apply Z.ltb_lt; vm_compute; reflexivity ].

(** The fraction of an hour [Hours] adds is below 1. *)
Lemma fraction_below_one (r : Z) :
  0 <= r <= Hour - 1 ->
  le_float (div (of_int r) (of_int Hour)) 9007199254738944 (-53).
Proof.
  intros Hr. unfold div.
  change (of_int Hour) with (S754_finite false 7372800000000000 (-11)).
  apply (div_le _ _ _ 7372799999997952 (-11)).
  - apply of_int_le; [lia|reflexivity|lia|].
    transitivity ((Hour - 1) * p2 0); [|by_computation].
    apply Z.mul_le_mono_nonneg_r; [apply p2_nonneg|lia].
  - lia.
  - reflexivity.
  - lia.
  - by_computation.
Qed.

(** From 24 hours on, a duration is at least 24 in hours, and below [2^23]. *)
Lemma Hours_from_24 (d : Duration) :
  24 * Hour <= d <= maxDuration ->
  ge_bound (Hours d) 6755399441055744 (-48) /\
  le_float (Hours d) 4503599627370496 (-29).
Proof.
  intros Hd. unfold Hours.
  rewrite Z.quot_div_nonneg, Z.rem_mod_nonneg by (unfold Hour in *; lia).
  assert (Hh : 24 <= d / Hour <= 2562047).
  { split.
    - apply Z.div_le_lower_bound; unfold Hour in *; lia.
    - apply Z.lt_succ_r. apply Z.div_lt_upper_bound; unfold Hour, maxDuration in *; lia. }
  assert (Hn : 0 <= d mod Hour <= Hour - 1).
  { pose proof (Z.mod_pos_bound d Hour ltac:(unfold Hour; lia)). lia. }
  pose proof (fraction_below_one _ Hn) as Hfrac.
  pose proof (p2_pos 0 ltac:(lia)) as HP0.
  destruct (int_canonical (d / Hour) ltac:(lia)) as (M & E & Hcan & HE & Hv).
  split.
  - apply (add_ge_bound _ _ _ _ 9007199254738944 (-53)); [|done|reflexivity].
    rewrite (of_int_exact _ M E) by (done || lia).
    destruct (canonical_bounds M E Hcan) as (HElo & _).
    split; [done|]. rewrite Hv.
    transitivity (24 * p2 0); [by_computation|].
    apply Z.mul_le_mono_nonneg_r; lia.
  - apply (add_le _ _ 4503599627370496 (-30) 9007199254738944 (-53)).
    + apply of_int_le; [lia|reflexivity|lia|].
      transitivity (2562047 * p2 0); [|by_computation].
      apply Z.mul_le_mono_nonneg_r; lia.
    + done.
    + reflexivity.
    + lia.
    + by_computation.
Qed.

(** From 24 hours on, the divisor of line 77 is a float from 1 to [2^19]. *)
Lemma days_from_one (d : Duration) :
  24 * Hour <= d <= maxDuration ->
  ge_float (Floor (div (Hours d) f24)) 0 /\
  le_float (Floor (div (Hours d) f24)) 4503599627370496 (-33).
Proof.
  intros Hd. destruct (Hours_from_24 d Hd) as [Hge Hle].
  destruct (Hours d) as [[]|[]| |[] mH eH]; try done.
  destruct Hge as [HeH Hge]. destruct Hle as [_ Hle].
  pose proof (p2_pos eH ltac:(lia)) as HPH.
  assert (HeHhi : eH <= 23).
  { apply p2_le_inv; [lia|]. transitivity (Zpos mH * p2 eH); [nia|].
    etransitivity; [exact Hle|]. by_computation. }
  assert (HQge : ge_float (div (S754_finite false mH eH) f24) 0).
  { unfold f24. apply div_ge_ratio; [lia|lia|lia|]. by rewrite Z.add_0_r. }
  assert (HQle : le_float (div (S754_finite false mH eH) f24) 4503599627370496 (-33)).
  { unfold div, f24. apply (div_le _ _ _ 4503599627370496 (-29)).
    - split; [lia|done].
    - lia.
    - reflexivity.
    - lia.
    - by_computation. }
  destruct (div (S754_finite false mH eH) f24) as [[]|[]| |[] mq eq]; try done.
  destruct HQge as [Heq HQge]. destruct HQle as [_ HQle].
  unfold Floor. cbn [cond_Zopp].
  destruct (Z.leb_spec 0 eq) as [H0|H0]; [by split|].
  rewrite Z.shiftr_div_pow2 by lia.
  pose proof (p2_pos eq ltac:(lia)) as HPq.
  assert (Hp0 : p2 0 = p2 eq * 2 ^ (- eq)).
  { rewrite <- p2_shift by lia. f_equal. lia. }
  assert (H2 : 0 < 2 ^ (- eq)) by (apply Z.pow_pos_nonneg; lia).
  assert (Hk : 1 <= Zpos mq / 2 ^ (- eq)).
  { apply Z.div_le_lower_bound; [done|]. rewrite Hp0 in HQge. nia. }
  pose proof (Z.mul_div_le (Zpos mq) (2 ^ (- eq)) H2) as Hkm.
  split.
  - by apply of_int_ge.
  - apply of_int_le; [lia|reflexivity|lia|].
    transitivity (Zpos mq * p2 eq); [|done]. rewrite Hp0. nia.
Qed.

Variable range_map : nat -> gmap string Z -> list (string * Z).

(** X15: when the earliest date is 24 hours or more before [t] and a result
    was received, the percentage [Run] computes is a finite number above
    zero. *)
Theorem percent_after_a_day (t : Time) (c : list result) (st : locals) (k : nat) :
  receive range_map 0 (start t) c = (inr st, k) ->
  c <> [] ->
  minDate st <= t - 24 * Hour ->
  is_finite (percent t st) = true /\ gt (percent t st) zero = true.
Proof.
  intros Hrec Hne Hday.
  destruct (receive_drained range_map t c st k Hrec) as (_ & _ & Hn & _).
  assert (Hd : 24 * Hour <= Sub t (minDate st) <= maxDuration).
  { unfold Sub, minDuration, maxDuration, Hour in *. lia. }
  destruct (days_from_one _ Hd) as [HDge HDle].
  unfold percent. rewrite Hn, counted_of_int.
  set (N := Z.min (Z.of_nat (length c)) (2 ^ 53)).
  assert (HN : 1 <= N <= 2 ^ 53) by (subst N; destruct c; [done|cbn [length]; lia]).
  pose proof (p2_pos 0 ltac:(lia)) as HP0.
  assert (HNle : le_float (of_int N) 4503599627370496 1).
  { apply of_int_le; [lia|reflexivity|lia|].
    transitivity (2 ^ 53 * p2 0); [|by_computation].
    apply Z.mul_le_mono_nonneg_r; lia. }
  pose proof (of_int_ge N ltac:(lia)) as HNge.
  assert (Hpos : ge_float (div (of_int N) (Floor (div (Hours (Sub t (minDate st))) f24)))
                   (0 - 19)).
  { apply div_ge; [done| |lia|lia].
    apply (le_float_trans _ 4503599627370496 (-33)); [done|by_computation]. }
  destruct (Floor (div (Hours (Sub t (minDate st))) f24)) as [[]|[]| |[] mD eD];
    try done.
  destruct HDge as [HeD HDge]. destruct HDle as [_ HDle].
  pose proof (p2_pos eD ltac:(lia)) as HPD.
  assert (HeDhi : eD <= 19).
  { apply p2_le_inv; [lia|]. transitivity (Zpos mD * p2 eD); [nia|].
    etransitivity; [exact HDle|]. by_computation. }
  assert (Hfin : le_float (div (of_int N) (S754_finite false mD eD)) 4503599627370496 1).
  { unfold div. apply (div_le _ _ _ 4503599627370496 1); [done|lia|reflexivity|lia|].
    replace (1 + eD) with (eD + 1) by lia. rewrite (p2_shift eD 1) by lia.
    assert (p2 1 = p2 0 * 2) by (by vm_compute). nia. }
  by destruct (div (of_int N) (S754_finite false mD eD)) as [[]|[]| |[] mp ep].
Qed.
End Below.

Lemma percent_after_a_day_witness :
  exists st,
    receive range_fwd 0 (start Examples.jan10) [Examples.entry1; Examples.entry2] =
      (inr st, 2%nat) /\
    is_finite (percent Examples.jan10 st) = true /\
    gt (percent Examples.jan10 st) zero = true.
Proof.
  eexists. split; [reflexivity|].
  apply (percent_after_a_day range_fwd Examples.jan10
           [Examples.entry1; Examples.entry2] _ 2%nat).
  - reflexivity.
  - discriminate.
  - vm_compute. discriminate.
Defined.

(** ** The merged map, word by word, and the average *)

Section Merged.
Local Open Scope Z_scope.
Variable refFreqs : gmap string float64.
Variable range_map : nat -> gmap string Z -> list (string * Z).
Variable sort_Slice : forall A : Type, (A -> A -> bool) -> list A -> list A.

Lemma tally_sum (w : string) (c : list result) (o : option Z) :
  tally w o c =
    match mentions w c with
    | [] => o
    | _ :: _ => Some (wrap64 (default 0 o + Zsum (mentions w c)))
    end.
Proof.
  revert o. induction c as [|r c IH]; intros o; [done|].
  unfold tally in *. cbn [foldl]. rewrite IH. unfold mentions. cbn [omap list_omap].
  fold (mentions w c). destruct (wordMap r !! w) as [n|]; [|done].
  rewrite Zsum_cons. destruct (mentions w c) as [|n' l].
  - change (Zsum []) with 0. by rewrite Z.add_0_r.
  - cbn [default from_option]. unfold id. rewrite wrap64_add_l. do 2 f_equal. lia.
Qed.

(** X16: when the loop has drained the channel, the merged map holds for a
    word the sum, modulo [2^64], of the counts the results give it, and
    nothing for a word no result has. *)
Theorem merged_word_count (t : Time) (c : list result) (st : locals) (k : nat)
    (w : string) :
  range_complete range_map ->
  receive range_map 0 (start t) c = (inr st, k) ->
  words st !! w =
    match mentions w c with
    | [] => None
    | _ :: _ => Some (wrap64 (Zsum (mentions w c)))
    end.
Proof.
  intros Hrange Hrec.
  destruct (receive_drained range_map t c st k Hrec) as (Hok & _).
  rewrite (receive_words range_map c 0 k (start t) st Hrange Hok Hrec w).
  rewrite tally_sum. change (words (start t) !! w) with (@None Z).
  by destruct (mentions w c).
Qed.

(** X17: the average printed is the quotient, rounded once, of the total
    word count by the number of entries, both converted to float64. *)
Theorem Run_average_word_count (t : Time) (c : list result) :
  range_complete range_map ->
  Forall succeeded c -> c <> [] ->
  stdout (Run refFreqs range_map sort_Slice t c None) !! 2%nat =
    Some (AverageWordCount
            (div (of_int (wrap64 (stream_total c)))
                 (of_int (Z.min (Z.of_nat (length c)) (2 ^ 53))))).
Proof.
  intros Hrange Hok Hne.
  destruct (receive_succeeded range_map c 0 (start t) Hok) as (st & Hrec & _).
  pose proof (receive_total range_map c _ _ _ _ Hrange Hrec) as Htot.
  change (words_total (words (start t))) with 0 in Htot. rewrite Z.add_0_l in Htot.
  destruct (receive_drained range_map t c st _ Hrec) as (_ & _ & Hn & _).
  apply (entryCount_positive range_map t c st _ Hrec) in Hne.
  unfold Run. fold (start t). rewrite Hrec, Hne. unfold report.
  rewrite sum_counts_spec, words_total_range, Htot, Hn, counted_of_int by done.
  repeat case_match; simplify_eq; done.
Qed.
End Merged.

Lemma merged_word_count_witness :
  exists st,
    receive range_fwd 0 (start Examples.jan10) [Examples.entry1; Examples.entry2] =
      (inr st, 2%nat) /\
    words st !! "hi"%string = Some 3%Z.
Proof.
  eexists. split; [reflexivity|].
  apply (merged_word_count range_fwd Examples.jan10
           [Examples.entry1; Examples.entry2] _ 2%nat "hi").
  - exact range_fwd_complete.
  - reflexivity.
Defined.

Lemma Run_average_word_count_witness :
  stdout (Run Examples.someRefs range_fwd insertion_sort Examples.jan10
            [Examples.entry1; Examples.entry2] None) !! 2%nat =
    Some (AverageWordCount (div (of_int 5) (of_int 2))).
Proof.
  apply (Run_average_word_count Examples.someRefs range_fwd insertion_sort
           Examples.jan10 [Examples.entry1; Examples.entry2]).
  - exact range_fwd_complete.
  - repeat constructor.
  - discriminate.
Defined.

(** ** How far from 1 a relative frequency is *)

Section Magnitude.
Local Open Scope Z_scope.
Variable refFreqs : gmap string float64.

(** A float of the format has 53 bits, or the least exponent. *)
Lemma canonical_normal (m : positive) (e : Z) :
  canonical_mantissa 53 1024 m e = true -> e = -1074 \/ 2 ^ 52 <= Zpos m.
Proof.
  intros Hcan. destruct (canonical_bounds m e Hcan) as (He & Hd & Hm & Hfexp).
  rewrite fexp_eq in Hfexp. destruct (Z.eq_dec e (-1074)) as [|Hne]; [by left|right].
  pose proof (digits_spec m) as [Hlo _].
  replace (Zpos (digits2_pos m)) with 53 in Hlo by lia. exact Hlo.
Qed.

(** The order of [SFcompare] on positive floats of the format is the order
    of their values. *)
Lemma key_value_le (mx my : positive) (ex ey : Z) :
  canonical_mantissa 53 1024 mx ex = true ->
  canonical_mantissa 53 1024 my ey = true ->
  ~ lex_lt (key (S754_finite false mx ex)) (key (S754_finite false my ey)) ->
  Zpos my * p2 ey <= Zpos mx * p2 ex.
Proof.
  intros Hx Hy Hnlt. unfold lex_lt in Hnlt. cbn [key fst snd] in Hnlt.
  destruct (canonical_bounds mx ex Hx) as (Hex & _ & Hmx & _).
  destruct (canonical_bounds my ey Hy) as (Hey & _ & Hmy & _).
  pose proof (p2_pos ex ltac:(lia)). pose proof (p2_pos ey ltac:(lia)).
  destruct (Z.lt_trichotomy ex ey) as [Hlt|[Heq|Hgt]]; [lia| |].
  - subst ey. assert (Zpos my <= Zpos mx) by lia. nia.
  - destruct (canonical_normal mx ex Hx) as [|Hn]; [lia|].
    transitivity (p2 (ey + 53)).
    + rewrite p2_shift by lia. nia.
    + transitivity (p2 (ex + 52)); [apply p2_le; lia|].
      rewrite p2_shift by lia. nia.
Qed.

Lemma relFrequency_cases (f r : float64) :
  valid_binary 53 1024 f = true -> valid_binary 53 1024 r = true ->
  gt f zero = true -> SFleb zero r = true -> SFleb r one = true ->
  relFrequency f r = zero \/
  ge_float (relFrequency f r) 0 \/
  ge_float (SFopp (relFrequency f r)) 0.
Proof.
  intros Hvf Hvr Hf Hr0 Hr1. unfold relFrequency.
  destruct (gt f r) eqn:Hfr.
  - destruct (gt r zero) eqn:Hrpos; [|by left]. right; left.
    destruct f as [[]|[]| |[] mf ef]; try done;
      destruct r as [[]|[]| |[] mr er]; try done.
    cbn [valid_binary] in Hvf, Hvr. unfold bounded in Hvf, Hvr.
    apply andb_true_iff in Hvf as [Hcf Hef], Hvr as [Hcr Her].
    apply Z.leb_le in Hef, Her.
    destruct (canonical_bounds mf ef Hcf) as (Hef0 & _).
    destruct (canonical_bounds mr er Hcr) as (Her0 & _).
    apply div_ge_ratio; [lia|lia|lia|]. rewrite Z.add_0_r.
    apply key_value_le; [done|done|].
    unfold gt in Hfr. apply SFltb_key in Hfr; [|done|done].
    unfold lex_lt in *. cbn [key fst snd] in *. lia.
  - right; right. rewrite neg_div.
    destruct f as [[]|[]| |[] mf ef]; try done;
      destruct r as [[]|[]| |[] mr er]; try done.
    cbn [valid_binary] in Hvf, Hvr. unfold bounded in Hvf, Hvr.
    apply andb_true_iff in Hvf as [Hcf Hef], Hvr as [Hcr Her].
    apply Z.leb_le in Hef, Her.
    destruct (canonical_bounds mf ef Hcf) as (Hef0 & _).
    destruct (canonical_bounds mr er Hcr) as (Her0 & _).
    assert (Hq : ge_float (div (S754_finite false mr er) (S754_finite false mf ef)) 0).
    { apply div_ge_ratio; [lia|lia|lia|]. rewrite Z.add_0_r.
      apply key_value_le; [done|done|].
      unfold gt in Hfr. by apply SFltb_key_false in Hfr. }
    by destruct (div _ _) as [[]|[]| |[] mq eq].
Qed.

(** X18: the relative frequency of a word that was observed is 0, at least
    1, or at most -1: a word is never ranked as used "0.5 times" as often. *)
Theorem relFrequency_magnitude (wordCount : Z) (wc : string * Z) :
  1 <= wordCount < 2 ^ 64 -> 1 <= wc.2 ->
  (forall r, refFreqs !! wc.1 = Some r ->
     valid_binary 53 1024 r = true /\ SFleb zero r = true /\ SFleb r one = true) ->
  let rel := frequency (mkStat refFreqs wordCount wc) in
  rel = zero \/ ge_float rel 0 \/ ge_float (SFopp rel) 0.
Proof.
  intros Htotal Hcount Href rel. subst rel. cbn [mkStat frequency].
  apply relFrequency_cases.
  - apply div_valid.
  - destruct (refFreqs !! wc.1) as [r|]; [by apply Href|done].
  - by apply frequency_positive.
  - destruct (refFreqs !! wc.1) as [r|]; [by apply Href|done].
  - destruct (refFreqs !! wc.1) as [r|]; [by apply Href|done].
Qed.
End Magnitude.

Lemma relFrequency_magnitude_witness :
  let rel := frequency (mkStat Examples.rankRefs 8 ("hi"%string, 5%Z)) in
  rel = zero \/ ge_float rel 0 \/ ge_float (SFopp rel) 0.
Proof.
  apply (relFrequency_magnitude Examples.rankRefs 8 ("hi"%string, 5%Z)).
  - lia.
  - simpl. lia.
  - intros r Hr. vm_compute in Hr. by simplify_eq.
Defined.

(** ** The goroutines at the edges: a failed walk, an empty tree *)

Section PipelineEdges.
Variable refFreqs : gmap string float64.
Variable range_map : nat -> gmap string Z -> list (string * Z).
Variable sort_Slice : forall A : Type, (A -> A -> bool) -> list A -> list A.
Variable IsEntry : string -> bool.
Variable Name : string -> string.
Variable Load : string -> option error.
Variable Words : string -> list string.
Variable Date : string -> Time.
Variable ToLower : string -> string.
Variable t : Time.

Local Notation "'scanP'" := (scan Load Words Date ToLower).
Local Notation "'execP'" :=
  (exec refFreqs range_map sort_Slice IsEntry Name Load Words Date ToLower t).
Local Notation "'invP'" :=
  (inv refFreqs range_map sort_Slice IsEntry Name Load Words Date ToLower t).

(** What [Run] has returned at the end of a schedule in which every file
    sent loads: it received every result. *)
Lemma pipeline_all_received (root : list visit) (sched : list choice)
    (s : system) (x : execution) :
  (forall p, p ∈ (walkFiles IsEntry Name None root).1 -> Load p = None) ->
  execP sched (init t root) = Some s -> main_st s = Finished x ->
  exists c st,
    c ≡ₚ scanP <$> (walkFiles IsEntry Name None root).1 /\
    receive range_map 0 (start t) c = (inr st, length c) /\
    x = after_loop refFreqs range_map sort_Slice t st (length c)
          (walkFiles IsEntry Name None root).2.
Proof.
  intros Hload Hex Hx.
  destruct (exec_inv refFreqs range_map sort_Slice IsEntry Name Load Words Date ToLower
              t root sched _ s (inv_init _ _ _ _ _ _ _ _ _ _ root) Hex) as [_ Hm].
  rewrite Hx in Hm. destruct Hm as (_ & c & Hsub & -> & Hall).
  assert (Hok : Forall succeeded c).
  { apply Forall_forall. intros r Hr'.
    pose proof (elem_of_submseteq _ _ _ Hr' Hsub) as Hin.
    apply list_elem_of_fmap in Hin as (p & -> & Hp). exact (Hload p Hp). }
  destruct (receive_succeeded range_map c 0 (start t) Hok) as (st & Hrec & _).
  exists c, st. split; [by apply Hall|]. split; [done|].
  rewrite Run_after_loop. by rewrite Hrec.
Qed.

(** X19: when [filepath.Walk] fails and every file sent before loads, [Run]
    receives all their results, then returns the error of the walk and
    prints nothing, under every schedule. *)
Theorem pipeline_walk_error (root : list visit) (sched : list choice)
    (s : system) (x : execution) (e : error) :
  (walkFiles IsEntry Name None root).2 = Some e ->
  (forall p, p ∈ (walkFiles IsEntry Name None root).1 -> Load p = None) ->
  execP sched (init t root) = Some s -> main_st s = Finished x ->
  x = {| ret := Return (Some e); stdout := [];
         taken := length (walkFiles IsEntry Name None root).1 |}.
Proof.
  intros He Hload Hex Hx.
  destruct (pipeline_all_received root sched s x Hload Hex Hx)
    as (c & st & Hperm & Hrec & ->).
  rewrite He. cbn [after_loop]. by rewrite Hperm, length_fmap.
Qed.

(** X20: on a tree in which the walk finds nothing to send and meets no
    error, [Run] returns nil and prints nothing, under every schedule. *)
Theorem pipeline_no_entries (root : list visit) (sched : list choice)
    (s : system) (x : execution) :
  walkFiles IsEntry Name None root = ([], None) ->
  execP sched (init t root) = Some s -> main_st s = Finished x ->
  x = {| ret := Return None; stdout := []; taken := 0 |}.
Proof.
  intros Hwalk Hex Hx.
  destruct (pipeline_all_received root sched s x) as (c & st & Hperm & Hrec & ->);
    [by rewrite Hwalk; intros p Hp%elem_of_nil|done|done|].
  rewrite Hwalk in *. cbn [fst snd fmap list_fmap] in *.
  apply Permutation_nil_r in Hperm. subst c. cbn [receive] in Hrec. by simplify_eq.
Qed.
End PipelineEdges.

Lemma pipeline_walk_error_witness :
  exists s x,
    exec Examples.someRefs range_fwd insertion_sort (fun _ => true)
           Examples.base Examples.loads Examples.journal_words Examples.journal_date
           Examples.lower Examples.jan10
      Examples.schedule_locked (init Examples.jan10 (Examples.locked_tree_before ++ Examples.locked_dir
           :: Examples.locked_tree_after)) = Some s /\
    main_st s = Finished x /\
    x = {| ret := Return (Some "permission denied"%string); stdout := [];
           taken := 1 |}.
Proof.
  eexists. eexists. split; [vm_compute; reflexivity|]. split; [reflexivity|].
  eapply (pipeline_walk_error Examples.someRefs range_fwd insertion_sort (fun _ => true)
           Examples.base Examples.loads Examples.journal_words Examples.journal_date
           Examples.lower Examples.jan10
           (Examples.locked_tree_before ++ Examples.locked_dir
           :: Examples.locked_tree_after)
           Examples.schedule_locked).
  - reflexivity.
  - reflexivity.
  - vm_compute. reflexivity.
  - reflexivity.
Defined.

Lemma pipeline_no_entries_witness :
  exists s x,
    exec Examples.someRefs range_fwd insertion_sort (fun _ => true)
           Examples.base Examples.loads Examples.journal_words Examples.journal_date
           Examples.lower Examples.jan10
      Examples.schedule_empty (init Examples.jan10 Examples.empty_tree) = Some s /\
    main_st s = Finished x /\
    x = {| ret := Return None; stdout := []; taken := 0 |}.
Proof.
  eexists. eexists. split; [vm_compute; reflexivity|]. split; [reflexivity|].
  eapply (pipeline_no_entries Examples.someRefs range_fwd insertion_sort (fun _ => true)
           Examples.base Examples.loads Examples.journal_words Examples.journal_date
           Examples.lower Examples.jan10
           Examples.empty_tree Examples.schedule_empty).
  - reflexivity.
  - vm_compute. reflexivity.
  - reflexivity.
Defined.
